(** * TonConnect page-script bridge (src/extension/pageScript/TonConnect.ts)

    A shallow embedding of the [TonConnect] class: the request-id counter,
    the listener registry (a JS array held by reference), the
    [beforeunload] listener, and the three asynchronous operations
    [connect], [restoreConnection] and [send], each of which suspends
    once on the transport's promise. *)

From Stdlib Require Import ZArith NArith String List Sorted.
From stdpp Require Import base option list gmap strings sorting.

Local Open Scope string_scope.
Local Open Scope list_scope.

(** ** Data model *)

(** [DeviceInfo['platform']], restricted to the values [getPlatform] assigns. *)
Inductive DevicePlatform := mac | iphone | ipad | windows | linux.

(** An entry of [DeviceInfo.features]: a legacy bare name, or an object
    [{ name, maxMessages }]. *)
Inductive Feature :=
  | FeatureName (name : string)
  | FeatureObject (name : string) (maxMessages : Z).

(** [getPlatform()!] can be [undefined] at run time, hence the option. *)
Record DeviceInfo := {
  platform : option DevicePlatform;
  appName : string;
  appVersion : string;
  maxProtocolVersion : Z;
  features : list Feature;
}.

(** [window.navigator], as far as [getPlatform] reads it. *)
Record Navigator := {
  navigator_userAgent : string;
  navigator_platform : string;
}.

Record ConnectRequest := {
  manifestUrl : string;
  requestItems : list string;
}.

(** Payload of a successful connect event; the transport may or may not
    have filled in [device]. *)
Record ConnectPayload := {
  items : list string;
  device : option DeviceInfo;
}.

(** [WalletEvent]: the tagged union discriminated by the [event] field.
    Ids are JS numbers holding integers; every integer below 2^53 is exact
    there, and the model uses unbounded naturals. *)
Inductive WalletEvent :=
  | ConnectEventSuccess (id : N) (payload : ConnectPayload)
  | ConnectEventError (id : N) (code : Z) (message : string)
  | DisconnectEvent (id : N).

Definition event_id (e : WalletEvent) : N :=
  match e with
  | ConnectEventSuccess id _ => id
  | ConnectEventError id _ _ => id
  | DisconnectEvent id => id
  end.

(** The [id] of an [AppRequest] is chosen by the page. *)
Inductive MessageId := IdNumber (n : Z) | IdString (s : string).

Record AppMethodMessage := {
  method : string;
  params : list string;
  message_id : MessageId;
}.

(** [WalletResponse]: success [{ result, id }] or error
    [{ error: { code, message }, id }]. *)
Inductive WalletMethodMessage :=
  | WalletResponseSuccess (result : string) (id : MessageId)
  | WalletResponseError (code : Z) (message : string) (id : MessageId).

(** Arguments handed to [apiConnector.request]. *)
Inductive Arg :=
  | ArgConnectRequest (m : ConnectRequest)
  | ArgNumber (n : N)
  | ArgMessage (m : AppMethodMessage).

Record Request := {
  name : string;
  args : list Arg;
}.

(** ** Control: exceptions and promises *)

(** Result of synchronous code: it returns, or an exception escapes it. *)
Inductive Completion (A : Type) :=
  | Returns (value : A)
  | Throws (reason : string).
Arguments Returns {A} value.
Arguments Throws {A} reason.

(** State of a settled promise. *)
Inductive Settlement (A : Type) :=
  | Resolved (value : A)
  | Rejected (reason : string).
Arguments Resolved {A} value.
Arguments Rejected {A} reason.

(** An [async] function turns the completion of its body into the
    settlement of the promise it returned. *)
Definition settle {A} (c : Completion A) : Settlement A :=
  match c with
  | Returns v => Resolved v
  | Throws e => Rejected e
  end.

(** ** Listeners *)

(** A callback is a function object; [cb !== callback] compares identity,
    so a callback is represented by its identity. *)
Definition Callback := nat.

(** What a callback may do to the bridge while it runs: register a
    callback, invoke the unsubscribe closure made by [listen] for a
    callback, or throw. *)
Inductive Action :=
  | ActListen (cb : Callback)
  | ActUnsubscribe (cb : Callback)
  | ActThrow (reason : string).

(** ** Environment of the module *)

(** What the module imports or reads from its surroundings:
    [window.navigator], [packageJson.version], the two members of
    [CONNECT_EVENT_ERROR_CODES] it uses, and the code of every callback. *)
Record Env := {
  navigator : Navigator;
  packageJson_version : string;
  BAD_REQUEST_ERROR : Z;
  UNKNOWN_ERROR : Z;
  body : Callback -> WalletEvent -> list Action;
}.

(** ** The bridge object and the world it acts on *)

(** The fields of the [TonConnect] instance, followed by the parts of the
    page it reaches: the array objects (addressed by position in
    [arrays]; [callbacks] is a reference into it), whether
    [unloadEventListener] is registered on [window] for [beforeunload],
    the calls made on [apiConnector.request], and the calls made on
    callbacks. *)
Record Bridge := {
  deviceInfo : DeviceInfo;
  protocolVersion : Z;
  isWalletBrowser : bool;
  callbacks : nat;
  lastGeneratedId : N;
  arrays : list (list Callback);
  beforeunload : bool;
  requests : list Request;
  deliveries : list (Callback * WalletEvent);
}.

Definition set_callbacks (a : nat) (this : Bridge) : Bridge :=
  {| deviceInfo := deviceInfo this; protocolVersion := protocolVersion this;
     isWalletBrowser := isWalletBrowser this; callbacks := a;
     lastGeneratedId := lastGeneratedId this; arrays := arrays this;
     beforeunload := beforeunload this; requests := requests this;
     deliveries := deliveries this |}.

Definition set_lastGeneratedId (n : N) (this : Bridge) : Bridge :=
  {| deviceInfo := deviceInfo this; protocolVersion := protocolVersion this;
     isWalletBrowser := isWalletBrowser this; callbacks := callbacks this;
     lastGeneratedId := n; arrays := arrays this;
     beforeunload := beforeunload this; requests := requests this;
     deliveries := deliveries this |}.

Definition set_arrays (h : list (list Callback)) (this : Bridge) : Bridge :=
  {| deviceInfo := deviceInfo this; protocolVersion := protocolVersion this;
     isWalletBrowser := isWalletBrowser this; callbacks := callbacks this;
     lastGeneratedId := lastGeneratedId this; arrays := h;
     beforeunload := beforeunload this; requests := requests this;
     deliveries := deliveries this |}.

Definition set_beforeunload (b : bool) (this : Bridge) : Bridge :=
  {| deviceInfo := deviceInfo this; protocolVersion := protocolVersion this;
     isWalletBrowser := isWalletBrowser this; callbacks := callbacks this;
     lastGeneratedId := lastGeneratedId this; arrays := arrays this;
     beforeunload := b; requests := requests this;
     deliveries := deliveries this |}.

Definition set_requests (r : list Request) (this : Bridge) : Bridge :=
  {| deviceInfo := deviceInfo this; protocolVersion := protocolVersion this;
     isWalletBrowser := isWalletBrowser this; callbacks := callbacks this;
     lastGeneratedId := lastGeneratedId this; arrays := arrays this;
     beforeunload := beforeunload this; requests := r;
     deliveries := deliveries this |}.

Definition set_deliveries (d : list (Callback * WalletEvent)) (this : Bridge) : Bridge :=
  {| deviceInfo := deviceInfo this; protocolVersion := protocolVersion this;
     isWalletBrowser := isWalletBrowser this; callbacks := callbacks this;
     lastGeneratedId := lastGeneratedId this; arrays := arrays this;
     beforeunload := beforeunload this; requests := requests this;
     deliveries := d |}.

(** The array [this.callbacks] currently refers to. *)
Definition registry (this : Bridge) : list Callback :=
  default [] (arrays this !! callbacks this).

(** An [async] function of the class, once called: either its promise is
    already settled, or it is suspended at its [await] on the transport
    promise [handle], with [k] the code that runs when that promise is
    fulfilled ([None] stands for [undefined], or any other falsy value). *)
Inductive Async (T A : Type) :=
  | Settled (s : Settlement A)
  | Awaiting (handle : nat) (k : option T -> Bridge -> Bridge * Completion A).
Arguments Settled {T A} s.
Arguments Awaiting {T A} handle k.

(** The awaited promise settles. No method has a [try]: a rejection
    becomes the rejection of the method's own promise. *)
Definition resume {T A} (a : Async T A) (o : Settlement (option T)) (this : Bridge)
  : Bridge * Settlement A :=
  match a with
  | Settled s => (this, s)
  | Awaiting _ k =>
      match o with
      | Resolved response => let (this', c) := k response this in (this', settle c)
      | Rejected e => (this, Rejected e)
      end
  end.

(** A call that runs to its end with nothing else in between: the
    synchronous part, then the transport's answer [o]. *)
Definition complete {T A} (call : Bridge -> Bridge * Async T A)
    (o : Settlement (option T)) (this : Bridge) : Bridge * Settlement A :=
  let (this', a) := call this in resume a o this'.

Definition TONCONNECT_VERSION : Z := 2.

(** [re.test(s)] for a regular expression that is a plain word: [s] has
    the word as a substring. *)
Fixpoint includes (word s : string) : bool :=
  String.prefix word s ||
  match s with
  | EmptyString => false
  | String _ rest => includes word rest
  end.

(** [arr.indexOf(x) !== -1] *)
Definition indexOf_found (arr : list string) (x : string) : bool :=
  existsb (String.eqb x) arr.

Section TonConnect.

Context (env : Env).

Definition getPlatform : option DevicePlatform :=
  let userAgent := navigator_userAgent (navigator env) in
  let platform := navigator_platform (navigator env) in
  let macosPlatforms := ["macOS"; "Macintosh"; "MacIntel"; "MacPPC"; "Mac68K"] in
  let windowsPlatforms := ["Win32"; "Win64"; "Windows"; "WinCE"] in
  let iphonePlatforms := ["iPhone"] in
  let ipadPlatforms := ["iPad"; "iPod"] in
  if indexOf_found macosPlatforms platform then Some mac
  else if indexOf_found iphonePlatforms platform then Some iphone
  else if indexOf_found ipadPlatforms platform then Some ipad
  else if indexOf_found windowsPlatforms platform then Some windows
  else if includes "Android" userAgent then Some linux
  else if includes "Linux" platform then Some linux
  else None.

Definition getDeviceInfo : DeviceInfo :=
  {| platform := getPlatform;
     appName := "MyTonWallet";
     appVersion := packageJson_version env;
     maxProtocolVersion := TONCONNECT_VERSION;
     features := [FeatureName "SendTransaction";
                  FeatureObject "SendTransaction" 4] |}.

(** [new TonConnect(apiConnector)] in a page with no listener on
    [beforeunload]: the constructor allocates the empty array. *)
Definition new_TonConnect : Bridge :=
  {| deviceInfo := getDeviceInfo;
     protocolVersion := TONCONNECT_VERSION;
     isWalletBrowser := false;
     callbacks := 0;
     lastGeneratedId := 0;
     arrays := [[]];
     beforeunload := false;
     requests := [];
     deliveries := [] |}.

(** [this.apiConnector.request({ name: `tonConnect_${name}`, args })]; the
    promise it returns is identified by the position of the call. *)
Definition request (name : string) (args : list Arg) (this : Bridge) : Bridge * nat :=
  (set_requests (requests this ++ [{| name := "tonConnect_" ++ name; args := args |}]) this,
   length (requests this)).

Definition buildConnectError (id : N) (msg : option string) (code : option Z) : WalletEvent :=
  ConnectEventError id
    (match code with
     | Some c => if (c =? 0)%Z then UNKNOWN_ERROR env else c
     | None => UNKNOWN_ERROR env
     end)
    (default "Unknown error" msg).

Definition removeEventListeners (this : Bridge) : Bridge :=
  set_beforeunload false this.

Definition addEventListeners (this : Bridge) : Bridge :=
  set_beforeunload true (removeEventListeners this).

(** The closure [listen] returns:
    [this.callbacks = this.callbacks.filter((cb) => cb !== callback)].
    [filter] builds a new array; the old one stays as it is. *)
Definition unsubscribe (callback : Callback) (this : Bridge) : Bridge :=
  let filtered := filter (λ cb, cb ≠ callback) (registry this) in
  set_callbacks (length (arrays this)) (set_arrays (arrays this ++ [filtered]) this).

(** [this.callbacks.push(callback)] appends in place to the array
    [this.callbacks] refers to. *)
Definition listen (callback : Callback) (this : Bridge) : Bridge * (Bridge -> Bridge) :=
  (set_arrays (alter (λ a, a ++ [callback]) (callbacks this) (arrays this)) this,
   unsubscribe callback).

(** The statements of a callback, one after the other. *)
Fixpoint run_actions (acts : list Action) (this : Bridge) : Bridge * Completion unit :=
  match acts with
  | [] => (this, Returns tt)
  | ActListen cb :: rest => run_actions rest (fst (listen cb this))
  | ActUnsubscribe cb :: rest => run_actions rest (unsubscribe cb this)
  | ActThrow e :: _ => (this, Throws e)
  end.

(** The call [cb(event)]. *)
Definition call (cb : Callback) (event : WalletEvent) (this : Bridge) : Bridge * Completion unit :=
  run_actions (body env cb event)
    (set_deliveries (deliveries this ++ [(cb, event)]) this).

(** [Array.prototype.forEach] on the array object at address [O]: the
    length is read once, before the first call; element [k] is read from
    the array just before it is visited, and an index that is absent is
    skipped. [n] counts the iterations that remain. *)
Fixpoint forEach (O : nat) (event : WalletEvent) (n k : nat) (this : Bridge)
  : Bridge * Completion unit :=
  match n with
  | 0 => (this, Returns tt)
  | S n' =>
      match default [] (arrays this !! O) !! k with
      | Some cb =>
          match call cb event this with
          | (this', Returns _) => forEach O event n' (S k) this'
          | (this', Throws e) => (this', Throws e)
          end
      | None => forEach O event n' (S k) this
      end
  end.

Definition emit (event : WalletEvent) (this : Bridge) : Bridge * Completion WalletEvent :=
  let O := callbacks this in
  let len := length (default [] (arrays this !! O)) in
  match forEach O event len 0 this with
  | (this', Returns _) => (this', Returns event)
  | (this', Throws e) => (this', Throws e)
  end.

Definition connect (protocolVersion' : Z) (message : ConnectRequest) (this : Bridge)
  : Bridge * Async WalletEvent WalletEvent :=
  let id := N.succ (lastGeneratedId this) in
  let this := set_lastGeneratedId id this in
  if (protocolVersion this <? protocolVersion')%Z then
    (this, Settled (Resolved
       (buildConnectError id (Some "Unsupported protocol version")
          (Some (BAD_REQUEST_ERROR env)))))
  else
    let (this, h) := request "connect" [ArgConnectRequest message; ArgNumber id] this in
    (this, Awaiting h (λ response this,
       let (response, this) :=
         match response with
         | Some (ConnectEventSuccess i payload) =>
             (Some (ConnectEventSuccess i
                      {| items := items payload; device := Some getDeviceInfo |}),
              addEventListeners this)
         | _ => (response, this)
         end in
       emit (default (buildConnectError id None None) response) this)).

Definition restoreConnection (this : Bridge) : Bridge * Async WalletEvent WalletEvent :=
  let id := N.succ (lastGeneratedId this) in
  let this := set_lastGeneratedId id this in
  let (this, h) := request "reconnect" [ArgNumber id] this in
  (this, Awaiting h (λ response this,
     let (response, this) :=
       match response with
       | Some (ConnectEventSuccess i payload) =>
           (Some (ConnectEventSuccess i
                    {| items := items payload; device := Some getDeviceInfo |}),
            addEventListeners this)
       | _ => (response, this)
       end in
     emit (default (buildConnectError id None None) response) this)).

Definition send (message : AppMethodMessage) (this : Bridge)
  : Bridge * Async WalletMethodMessage WalletMethodMessage :=
  let id := message_id message in
  let (this, h) := request (method message) [ArgMessage message] this in
  (this, Awaiting h (λ response this,
     let this :=
       if String.eqb (method message) "disconnect"
       then removeEventListeners this else this in
     (this, Returns (default (WalletResponseError 0 "Unknown error" id) response)))).

Definition onDisconnect (this : Bridge) : Bridge * Completion unit :=
  let id := N.succ (lastGeneratedId this) in
  let this := set_lastGeneratedId id this in
  match emit (DisconnectEvent id) this with
  | (this, Returns _) => (removeEventListeners this, Returns tt)
  | (this, Throws e) => (this, Throws e)
  end.

(** [void this.request('deactivate')]: the promise is dropped. *)
Definition unloadEventListener (this : Bridge) : Bridge :=
  fst (request "deactivate" [] this).

(** ** The page as a machine

    Calls and transport answers arrive one at a time, in any order; a
    method suspended at its [await] stays in [suspended] under the handle
    of the promise it waits for. *)

Inductive Pending :=
  | PendingEvent (k : option WalletEvent -> Bridge -> Bridge * Completion WalletEvent)
  | PendingResponse
      (k : option WalletMethodMessage -> Bridge -> Bridge * Completion WalletMethodMessage).

(** What a caller got back. *)
Inductive Reply :=
  | ReplyEvent (s : Settlement WalletEvent)
  | ReplyResponse (s : Settlement WalletMethodMessage)
  | ReplyUnit (c : Completion unit).

Record System := {
  bridge : Bridge;
  suspended : gmap nat Pending;
  replies : list Reply;
}.

Inductive Input :=
  | CallConnect (protocolVersion' : Z) (message : ConnectRequest)
  | CallRestoreConnection
  | CallSend (message : AppMethodMessage)
  | CallListen (cb : Callback)
  | CallUnsubscribe (cb : Callback)
  | CallOnDisconnect
  | FireBeforeUnload
  | AnswerEvent (handle : nat) (o : Settlement (option WalletEvent))
  | AnswerResponse (handle : nat) (o : Settlement (option WalletMethodMessage)).

Definition boot : System :=
  {| bridge := new_TonConnect; suspended := ∅; replies := [] |}.

Definition started_event (s : System) (r : Bridge * Async WalletEvent WalletEvent) : System :=
  match snd r with
  | Settled v =>
      {| bridge := fst r; suspended := suspended s;
         replies := replies s ++ [ReplyEvent v] |}
  | Awaiting h k =>
      {| bridge := fst r; suspended := <[h := PendingEvent k]> (suspended s);
         replies := replies s |}
  end.

Definition started_response (s : System)
    (r : Bridge * Async WalletMethodMessage WalletMethodMessage) : System :=
  match snd r with
  | Settled v =>
      {| bridge := fst r; suspended := suspended s;
         replies := replies s ++ [ReplyResponse v] |}
  | Awaiting h k =>
      {| bridge := fst r; suspended := <[h := PendingResponse k]> (suspended s);
         replies := replies s |}
  end.

Definition step (s : System) (i : Input) : System :=
  match i with
  | CallConnect v m => started_event s (connect v m (bridge s))
  | CallRestoreConnection => started_event s (restoreConnection (bridge s))
  | CallSend m => started_response s (send m (bridge s))
  | CallListen cb =>
      {| bridge := fst (listen cb (bridge s)); suspended := suspended s;
         replies := replies s |}
  | CallUnsubscribe cb =>
      {| bridge := unsubscribe cb (bridge s); suspended := suspended s;
         replies := replies s |}
  | CallOnDisconnect =>
      let (this, c) := onDisconnect (bridge s) in
      {| bridge := this; suspended := suspended s;
         replies := replies s ++ [ReplyUnit c] |}
  | FireBeforeUnload =>
      {| bridge := if beforeunload (bridge s)
                   then unloadEventListener (bridge s) else bridge s;
         suspended := suspended s; replies := replies s |}
  | AnswerEvent h o =>
      match suspended s !! h with
      | Some (PendingEvent k) =>
          let (this, v) := resume (Awaiting h k) o (bridge s) in
          {| bridge := this; suspended := delete h (suspended s);
             replies := replies s ++ [ReplyEvent v] |}
      | _ => s
      end
  | AnswerResponse h o =>
      match suspended s !! h with
      | Some (PendingResponse k) =>
          let (this, v) := resume (Awaiting h k) o (bridge s) in
          {| bridge := this; suspended := delete h (suspended s);
             replies := replies s ++ [ReplyResponse v] |}
      | _ => s
      end
  end.

Definition run (s : System) (inputs : list Input) : System :=
  fold_left step inputs s.

(** The inputs that allocate a request id, and the id a step allocated. *)
Definition allocates (i : Input) : bool :=
  match i with
  | CallConnect _ _ | CallRestoreConnection | CallOnDisconnect => true
  | _ => false
  end.

Definition allocated (s : System) (i : Input) : option N :=
  if allocates i then Some (lastGeneratedId (bridge (step s i))) else None.

(** The ids allocated along a run, oldest first. *)
Fixpoint allocations (s : System) (inputs : list Input) : list N :=
  match inputs with
  | [] => []
  | i :: rest =>
      match allocated s i with
      | Some id => id :: allocations (step s i) rest
      | None => allocations (step s i) rest
      end
  end.

End TonConnect.

(** ** Concrete pages used to run the model *)

Definition chrome_on_linux : Navigator :=
  {| navigator_userAgent := "Mozilla/5.0 (X11; Linux x86_64) Chrome/120.0";
     navigator_platform := "Linux x86_64" |}.

Definition sample_request : ConnectRequest :=
  {| manifestUrl := "https://dapp.example/tonconnect-manifest.json";
     requestItems := ["ton_addr"] |}.

(** A page whose callbacks do nothing. The two error codes are the ones
    the protocol package assigns. *)
Definition quiet_page : Env :=
  {| navigator := chrome_on_linux;
     packageJson_version := "1.17.4";
     BAD_REQUEST_ERROR := 1;
     UNKNOWN_ERROR := 0;
     body := λ _ _, [] |}.

(** A page where callback 1 removes callback 2 whenever it is called, and
    callback 3 throws on a disconnect event. *)
Definition busy_page : Env :=
  {| navigator := chrome_on_linux;
     packageJson_version := "1.17.4";
     BAD_REQUEST_ERROR := 1;
     UNKNOWN_ERROR := 0;
     body := λ cb ev,
       match cb, ev with
       | 1, _ => [ActUnsubscribe 2]
       | 3, DisconnectEvent _ => [ActThrow "listener failed"]
       | _, _ => []
       end |}.

Definition getBalance_5 : AppMethodMessage :=
  {| method := "getBalance"; params := []; message_id := IdNumber 5 |}.

Definition disconnect_7 : AppMethodMessage :=
  {| method := "disconnect"; params := []; message_id := IdNumber 7 |}.

(** ** Vocabulary of the statements *)

(** The reference [this.callbacks] points to an allocated array. *)
Definition wf (this : Bridge) : Prop :=
  callbacks this < length (arrays this).

(** The array at address [O] starts with the elements [l]. *)
Definition holds (O : nat) (l : list Callback) (this : Bridge) : Prop :=
  ∃ l', arrays this !! O = Some (l ++ l').

(** Fields no callback can reach. *)
Definition same_frame (a b : Bridge) : Prop :=
  lastGeneratedId a = lastGeneratedId b ∧ beforeunload a = beforeunload b ∧
  requests a = requests b ∧ protocolVersion a = protocolVersion b.

(** The exception a list of statements ends with, if it has a [throw]. *)
Fixpoint thrown (acts : list Action) : option string :=
  match acts with
  | [] => None
  | ActThrow e :: _ => Some e
  | _ :: rest => thrown rest
  end.

(** The statements executed: those before the first [throw]. *)
Fixpoint effective (acts : list Action) : list Action :=
  match acts with
  | [] => []
  | ActThrow _ :: _ => []
  | a :: rest => a :: effective rest
  end.

(** Effect of one statement on the contents of the registry. *)
Definition act_registry (r : list Callback) (a : Action) : list Callback :=
  match a with
  | ActListen cb => r ++ [cb]
  | ActUnsubscribe cb => filter (λ c, c ≠ cb) r
  | ActThrow _ => r
  end.

Section Vocabulary.

Context (env : Env).

(** The callbacks of [l] that a dispatch of [ev] over [l] calls: all of
    them, up to and including the first one that throws. *)
Fixpoint called (ev : WalletEvent) (l : list Callback) : list Callback :=
  match l with
  | [] => []
  | cb :: rest =>
      match thrown (body env cb ev) with
      | Some _ => [cb]
      | None => cb :: called ev rest
      end
  end.

Fixpoint first_throw (ev : WalletEvent) (l : list Callback) : option string :=
  match l with
  | [] => None
  | cb :: rest =>
      match thrown (body env cb ev) with
      | Some e => Some e
      | None => first_throw ev rest
      end
  end.

(** The statements executed during a dispatch of [ev] over [l]. *)
Definition performed (ev : WalletEvent) (l : list Callback) : list Action :=
  concat (map (λ cb, effective (body env cb ev)) (called ev l)).

(** No callback of [l] throws when it is given [ev]. *)
Definition calm (ev : WalletEvent) (l : list Callback) : Prop :=
  Forall (λ cb, thrown (body env cb ev) = None) l.

(** The calls made on callbacks by moving from [a] to [b]. *)
Definition delivered_between (a b : Bridge) (d : list (Callback * WalletEvent)) : Prop :=
  deliveries b = deliveries a ++ d.

(** One dispatch per event of [events], in that order; an exception that
    escapes a dispatch ends that dispatch only. *)
Definition dispatch_all (events : list WalletEvent) (this : Bridge) : Bridge :=
  fold_left (λ this ev, fst (emit env ev this)) events this.

(** Every continuation the machine holds leaves the id counter alone. *)
Definition frames_counter {T A}
    (k : option T -> Bridge -> Bridge * Completion A) : Prop :=
  ∀ r this, lastGeneratedId (fst (k r this)) = lastGeneratedId this.

Definition sound (s : System) : Prop :=
  map_Forall (λ _ p,
    match p with
    | PendingEvent k => frames_counter k
    | PendingResponse k => frames_counter k
    end) (suspended s).

(** Inputs that belong to [send]: the call, and the transport's answer to
    a suspended [send]. *)
Definition is_send (i : Input) : bool :=
  match i with
  | CallSend _ | AnswerResponse _ _ => true
  | _ => false
  end.

End Vocabulary.

(** * The activity list

    The [transactions] memo of the [Activity] component (its source
    follows [SafetyRules] in src/components/auth/SafetyRules.tsx): the
    ids to show are looked up, filtered, and cut into groups of
    consecutive transactions of one day. *)

Module Activity.

Record ApiTransaction := {
  txId : string;
  timestamp : Z;
  slug : option string;
  amount : string;
}.

Record ApiToken := {
  decimals : Z;
}.

Record TransactionDateGroup := {
  datetime : Z;
  transactions : list ApiTransaction;
}.

(** The dependencies of the memo. [currentTokenSlug] is the prop [slug];
    an absent [areTinyTransfersHidden] counts as [false]. *)
Record Props := {
  tokensBySlug : option (gmap string ApiToken);
  byTxId : option (gmap string ApiTransaction);
  areTinyTransfersHidden : bool;
  currentTokenSlug : option string;
  txIdsBySlug : option (gmap string (list string));
}.

(** Truthiness of a [string | undefined]: the empty string is falsy. *)
Definition truthy (s : option string) : bool :=
  match s with
  | Some (String _ _) => true
  | _ => false
  end.

(** The code a [TypeError] stands for here: a property read on
    [undefined], or a call of something that is no function. *)
Definition TypeError : string := "TypeError".

(** The property names a plain object inherits from [Object.prototype].
    Their values are functions, and for [__proto__] the prototype object
    itself: none is nullish, and none has a property [map], [slug] or
    [decimals]. *)
Definition Object_prototype_keys : list string :=
  ["constructor"; "__defineGetter__"; "__defineSetter__"; "hasOwnProperty";
   "__lookupGetter__"; "__lookupSetter__"; "isPrototypeOf";
   "propertyIsEnumerable"; "toString"; "valueOf"; "__proto__";
   "toLocaleString"].

(** The read [o[key]] on a plain object whose own properties are [o]: an
    own property, else an inherited one, else [undefined]. *)
Inductive Read (A : Type) :=
  | Own (value : A)
  | Inherited
  | Undefined.
Arguments Own {A} value.
Arguments Inherited {A}.
Arguments Undefined {A}.

Definition read {A} (o : gmap string A) (key : string) : Read A :=
  match o !! key with
  | Some value => Own value
  | None =>
      if bool_decide (key ∈ Object_prototype_keys) then Inherited else Undefined
  end.

(** What [txIds] holds once it is assigned: an array of ids, or a value
    read off the prototype, which is no array. *)
Inductive TxIds :=
  | IdArray (ids : list string)
  | NotAnArray.

Section Memo.

(** Helpers and branches that live in other modules: [getDayStartAt] of
    util/dateFormat; the test
    [Math.abs(bigStrToHuman(amount, decimals)) >= TINY_TRANSFER_MAX_AMOUNT],
    where [decimals] can be [undefined]; and the value of [txIds] in the
    branch without a selected slug, which merges and sorts all ids with
    [findLast], [getIsTxIdLocal] and [compareTransactions]. *)
Context (getDayStartAt : Z → Z)
        (notTiny : string → option Z → bool)
        (mergedTxIds : Props → Completion (list string)).

(** [txIds], or [undefined] while [byTxId] is not there. In
    [bySlug[slug] ?? []] an inherited property is not nullish and is kept. *)
Definition selectTxIds (p : Props) : Completion (option TxIds) :=
  let bySlug := default ∅ (txIdsBySlug p) in
  match byTxId p with
  | Some _ =>
      match currentTokenSlug p with
      | Some (String c s) =>
          Returns (Some (match read bySlug (String c s) with
                         | Own ids => IdArray ids
                         | Inherited => NotAnArray
                         | Undefined => IdArray []
                         end))
      | _ =>
          match mergedTxIds p with
          | Returns txIds => Returns (Some (IdArray txIds))
          | Throws e => Throws e
          end
      end
  | None => Returns None
  end.

(** [tokensBySlug![slug].decimals]: the read of [decimals] throws when
    [tokensBySlug] is not there or has no property [slug] at all, and
    gives [undefined] on an inherited property. *)
Definition decimalsOf (p : Props) (key : string) : Completion (option Z) :=
  match tokensBySlug p with
  | None => Throws TypeError
  | Some tokens =>
      match read tokens key with
      | Own token => Returns (Some (decimals token))
      | Inherited => Returns None
      | Undefined => Throws TypeError
      end
  end.

(** The callback of [filter]: the [&&] chain, left to right. [None] is an
    element without a [slug]: [undefined], or an inherited property. *)
Definition shown (p : Props) (transaction : option ApiTransaction) : Completion bool :=
  match transaction with
  | None => Returns false
  | Some t =>
      match slug t with
      | Some (String c s) =>
          if negb (truthy (currentTokenSlug p))
             || bool_decide (Some (String c s) = currentTokenSlug p)
          then
            if negb (areTinyTransfersHidden p) then Returns true
            else
              match decimalsOf p (String c s) with
              | Returns d => Returns (notTiny (amount t) d)
              | Throws e => Throws e
              end
          else Returns false
      | _ => Returns false
      end
  end.

(** [Array.prototype.filter]: the callback is called on the elements in
    order; an exception ends it. *)
Fixpoint filterShown (p : Props) (l : list (option ApiTransaction))
  : Completion (list ApiTransaction) :=
  match l with
  | [] => Returns []
  | transaction :: rest =>
      match shown p transaction with
      | Throws e => Throws e
      | Returns keep =>
          match filterShown p rest with
          | Throws e => Throws e
          | Returns kept =>
              Returns (match transaction with
                       | Some t => if keep then t :: kept else kept
                       | None => kept
                       end)
          end
      end
  end.

(** [txIds.map((txId) => byTxId?.[txId]).filter(...)]; the call of [map]
    throws when [txIds] is no array. *)
Definition allTransactions (p : Props) (txIds : TxIds)
  : Completion (list ApiTransaction) :=
  match txIds with
  | NotAnArray => Throws TypeError
  | IdArray ids =>
      filterShown p
        (map (λ txId, byTxId p ≫= (λ m,
                match read m txId with
                | Own transaction => Some transaction
                | _ => None
                end)) ids)
  end.

(** The [forEach] over [allTransactions], from position [index] on, with
    [rest] the elements still to visit. [currentDateGroup] is the object
    pushed last on [groupedTransactions]: the array is [older] followed
    by that object, and a [push] on its [transactions] shows in the
    array. *)
Fixpoint visit (all rest : list ApiTransaction) (index : nat)
    (older : list TransactionDateGroup) (currentDateGroup : TransactionDateGroup)
  : list TransactionDateGroup :=
  match rest with
  | [] => older ++ [currentDateGroup]
  | transaction :: rest' =>
      let currentDateGroup :=
        {| datetime := datetime currentDateGroup;
           transactions := transactions currentDateGroup ++ [transaction] |} in
      match all !! (index + 1) with
      | Some nextTransaction =>
          let nextTransactionDayStartsAt := getDayStartAt (timestamp nextTransaction) in
          if (datetime currentDateGroup =? nextTransactionDayStartsAt)%Z
          then visit all rest' (S index) older currentDateGroup
          else visit all rest' (S index) (older ++ [currentDateGroup])
                 {| datetime := nextTransactionDayStartsAt; transactions := [] |}
      | None => visit all rest' (S index) older currentDateGroup
      end
  end.

(** The grouping that ends the memo. *)
Definition groupTransactions (all : list ApiTransaction) : list TransactionDateGroup :=
  match all with
  | [] => []
  | first :: _ =>
      visit all all 0 []
        {| datetime := getDayStartAt (timestamp first); transactions := [] |}
  end.

(** The memo: [undefined], or the list of groups. *)
Definition transactionsMemo (p : Props)
  : Completion (option (list TransactionDateGroup)) :=
  match selectTxIds p with
  | Throws e => Throws e
  | Returns None => Returns None
  | Returns (Some txIds) =>
      match allTransactions p txIds with
      | Throws e => Throws e
      | Returns all => Returns (Some (groupTransactions all))
      end
  end.

(** The day of a transaction. *)
Definition day (t : ApiTransaction) : Z := getDayStartAt (timestamp t).

(** All transactions of the group are of the day the group is headed by. *)
Definition of_one_day (g : TransactionDateGroup) : Prop :=
  Forall (λ t, day t = datetime g) (transactions g).

(** Whether the filter keeps a transaction of [byTxId], when the token
    [selected] is selected and [d] is what the read of its [decimals]
    gives. *)
Definition kept (p : Props) (selected : string) (d : option Z)
    (t : ApiTransaction) : bool :=
  bool_decide (slug t = Some selected)
  && (negb (areTinyTransfersHidden p) || notTiny (amount t) d).

End Memo.

(** Neighbours in the list are different. *)
Definition adjacent_differ (ds : list Z) : Prop :=
  ∀ i d1 d2, ds !! i = Some d1 → ds !! S i = Some d2 → d1 ≠ d2.

End Activity.

(** ** Concrete inputs for the further statements *)

(** A page where callback 1 registers callback 2 whenever it is called. *)
Definition growing_page : Env :=
  {| navigator := chrome_on_linux;
     packageJson_version := "1.17.4";
     BAD_REQUEST_ERROR := 1;
     UNKNOWN_ERROR := 0;
     body := λ cb ev,
       match cb with
       | 1 => [ActListen 2]
       | _ => []
       end |}.

(** Two pages on an iPad, one of them with an "Android" user agent. *)
Definition ipad_page (userAgent : string) : Env :=
  {| navigator := {| navigator_userAgent := userAgent; navigator_platform := "iPad" |};
     packageJson_version := "1.17.4";
     BAD_REQUEST_ERROR := 1;
     UNKNOWN_ERROR := 0;
     body := λ _ _, [] |}.

(** Days of 86400000 milliseconds, counted from the epoch. *)
Definition utc_day (t : Z) : Z := (t / 86400000 * 86400000)%Z.

Definition sample_transaction (id : string) (t : Z) (token : string)
  : Activity.ApiTransaction :=
  {| Activity.txId := id; Activity.timestamp := t;
     Activity.slug := Some token; Activity.amount := "1000000000" |}.

Definition sample_props (hidden : bool) : Activity.Props :=
  {| Activity.tokensBySlug := Some ∅;
     Activity.byTxId :=
       Some (<["a" := sample_transaction "a" 172800005 "toncoin"]>
             (<["b" := sample_transaction "b" 172800001 "toncoin"]>
              (<["c" := sample_transaction "c" 86400007 "toncoin"]> ∅)));
     Activity.areTinyTransfersHidden := hidden;
     Activity.currentTokenSlug := Some "toncoin";
     Activity.txIdsBySlug := Some (<["toncoin" := ["a"; "b"; "missing"; "c"]]> ∅) |}.

(** ** Vocabulary of the further statements *)

(** The word [w] occurs in [s]. *)
Definition occurs_in (w s : string) : Prop :=
  ∃ pre post, s = pre +:+ w +:+ post.

(** The values of [navigator.platform] that [getPlatform] knows by name. *)
Definition named_platforms : list string :=
  ["macOS"; "Macintosh"; "MacIntel"; "MacPPC"; "Mac68K"; "iPhone"; "iPad"; "iPod";
   "Win32"; "Win64"; "Windows"; "WinCE"].

(** The fields of the instance that are set once, in the constructor. *)
Definition same_constants (a b : Bridge) : Prop :=
  deviceInfo a = deviceInfo b ∧ protocolVersion a = protocolVersion b ∧
  isWalletBrowser a = isWalletBrowser b.

(** A continuation that keeps the registry reference valid, the
    constants and the counter as they are, and sends nothing. *)
Definition tame {T A} (k : option T → Bridge → Bridge * Completion A) : Prop :=
  ∀ r this,
    (wf this → wf (fst (k r this))) ∧
    same_constants (fst (k r this)) this ∧
    lastGeneratedId (fst (k r this)) = lastGeneratedId this ∧
    requests (fst (k r this)) = requests this.

(** A continuation that calls no callback and leaves the registry alone. *)
Definition silent {T A} (k : option T → Bridge → Bridge * Completion A) : Prop :=
  ∀ r this,
    deliveries (fst (k r this)) = deliveries this ∧
    registry (fst (k r this)) = registry this.

Definition orderly (s : System) : Prop :=
  map_Forall (λ _ p,
    match p with
    | PendingEvent k => tame k
    | PendingResponse k => tame k ∧ silent k
    end) (suspended s).

(** A request whose name begins with "tonConnect_". *)
Definition tonConnect_named (r : Request) : Prop :=
  String.prefix "tonConnect_" (name r) = true.

(** The number of inputs that allocate an id. *)
Definition allocating (inputs : list Input) : nat :=
  length (filter (λ i, allocates i = true) inputs).

(** ** The registry as an array held by reference *)

Lemma registry_unsubscribe cb this :
  registry (unsubscribe cb this) = filter (λ c, c ≠ cb) (registry this).
Proof.
  unfold unsubscribe, registry at 1. simpl.
  rewrite lookup_app_r by lia. by rewrite Nat.sub_diag.
Qed.

Lemma registry_listen cb this :
  wf this → registry (fst (listen cb this)) = registry this ++ [cb].
Proof.
  intros Hwf. unfold registry, listen. simpl.
  rewrite list_lookup_alter_eq.
  destruct (lookup_lt_is_Some_2 (arrays this) (callbacks this) Hwf) as [a Ha].
  by rewrite Ha.
Qed.

Lemma wf_unsubscribe cb this : wf (unsubscribe cb this).
Proof. unfold wf, unsubscribe. simpl. rewrite length_app. simpl. lia. Qed.

Lemma wf_listen cb this : wf this → wf (fst (listen cb this)).
Proof. unfold wf, listen. simpl. by rewrite length_alter. Qed.

Lemma holds_unsubscribe O l cb this :
  holds O l this → holds O l (unsubscribe cb this).
Proof.
  intros [l' Hl]. exists l'. unfold unsubscribe. simpl.
  rewrite lookup_app_l; [done | by eapply lookup_lt_Some].
Qed.

Lemma holds_listen O l cb this :
  holds O l this → holds O l (fst (listen cb this)).
Proof.
  intros [l' Hl]. unfold holds, listen. simpl.
  destruct (decide (callbacks this = O)) as [-> | Hne].
  - exists (l' ++ [cb]). rewrite list_lookup_alter_eq, Hl. simpl.
    by rewrite app_assoc.
  - exists l'. by rewrite list_lookup_alter_ne.
Qed.

Lemma holds_registry this : wf this → holds (callbacks this) (registry this) this.
Proof.
  intros Hwf. exists []. unfold registry.
  destruct (lookup_lt_is_Some_2 (arrays this) (callbacks this) Hwf) as [a Ha].
  rewrite Ha. simpl. by rewrite app_nil_r.
Qed.

Lemma same_frame_refl this : same_frame this this.
Proof. by unfold same_frame. Qed.

Lemma same_frame_trans a b c : same_frame a b → same_frame b c → same_frame a c.
Proof. unfold same_frame. intros (?&?&?&?) (?&?&?&?). repeat split; congruence. Qed.

(** What the statements of a callback do and leave alone. *)
Lemma run_actions_spec acts : ∀ this,
  wf this →
  wf (fst (run_actions acts this)) ∧
  registry (fst (run_actions acts this))
    = fold_left act_registry (effective acts) (registry this) ∧
  snd (run_actions acts this)
    = match thrown acts with Some e => Throws e | None => Returns tt end ∧
  deliveries (fst (run_actions acts this)) = deliveries this ∧
  same_frame (fst (run_actions acts this)) this ∧
  ∀ O l, holds O l this → holds O l (fst (run_actions acts this)).
Proof.
  induction acts as [| a acts IH]; intros this Hwf.
  - simpl. repeat split; auto.
  - destruct a as [cb | cb | e]; simpl.
    + destruct (IH (fst (listen cb this)) (wf_listen cb this Hwf))
        as (H1 & H2 & H3 & H4 & H5 & H6).
      rewrite registry_listen in H2 by done.
      repeat split; try apply H5; auto.
      intros O l Hl. apply H6, holds_listen, Hl.
    + destruct (IH (unsubscribe cb this) (wf_unsubscribe cb this))
        as (H1 & H2 & H3 & H4 & H5 & H6).
      rewrite registry_unsubscribe in H2.
      repeat split; try apply H5; auto.
      intros O l Hl. apply H6, holds_unsubscribe, Hl.
    + repeat split; auto.
Qed.

Section Dispatch.

Context (env : Env).

Lemma call_spec cb ev this :
  wf this →
  wf (fst (call env cb ev this)) ∧
  registry (fst (call env cb ev this))
    = fold_left act_registry (effective (body env cb ev)) (registry this) ∧
  snd (call env cb ev this)
    = match thrown (body env cb ev) with Some e => Throws e | None => Returns tt end ∧
  deliveries (fst (call env cb ev this)) = deliveries this ++ [(cb, ev)] ∧
  same_frame (fst (call env cb ev this)) this ∧
  ∀ O l, holds O l this → holds O l (fst (call env cb ev this)).
Proof.
  intros Hwf. unfold call.
  set (this1 := set_deliveries (deliveries this ++ [(cb, ev)]) this).
  assert (Hwf1 : wf this1) by exact Hwf.
  destruct (run_actions_spec (body env cb ev) this1 Hwf1)
    as (H1 & H2 & H3 & H4 & H5 & H6).
  repeat split; try apply H5; auto.
Qed.

Lemma performed_cons ev cb rest :
  performed env ev (cb :: rest)
  = effective (body env cb ev)
    ++ match thrown (body env cb ev) with
       | Some _ => []
       | None => performed env ev rest
       end.
Proof.
  unfold performed. simpl. destruct (thrown (body env cb ev)); simpl; auto.
Qed.

(** The loop of [forEach] walks the elements the array had when the loop
    began, whatever the callbacks do to the registry meanwhile. *)
Lemma forEach_spec O ev l : ∀ n k this,
  wf this → holds O l this → k + n = length l →
  wf (fst (forEach env O ev n k this)) ∧
  registry (fst (forEach env O ev n k this))
    = fold_left act_registry (performed env ev (drop k l)) (registry this) ∧
  snd (forEach env O ev n k this)
    = match first_throw env ev (drop k l) with
      | Some e => Throws e
      | None => Returns tt
      end ∧
  deliveries (fst (forEach env O ev n k this))
    = deliveries this ++ map (λ cb, (cb, ev)) (called env ev (drop k l)) ∧
  same_frame (fst (forEach env O ev n k this)) this ∧
  holds O l (fst (forEach env O ev n k this)).
Proof.
  induction n as [| n IH]; intros k this Hwf Hl Hlen.
  - rewrite drop_ge by lia. simpl. rewrite app_nil_r.
    repeat split; auto.
  - assert (Hk : k < length l) by lia.
    destruct (lookup_lt_is_Some_2 l k Hk) as [cb Hcb].
    rewrite (drop_S l cb k Hcb). rewrite performed_cons. simpl.
    destruct Hl as [l' Hl]. rewrite Hl. simpl.
    rewrite (lookup_app_l_Some _ _ _ _ Hcb).
    destruct (call_spec cb ev this Hwf) as (C1 & C2 & C3 & C4 & C5 & C6).
    assert (Hl1 : holds O l (fst (call env cb ev this)))
      by (apply C6; by exists l').
    destruct (call env cb ev this) as [this1 c]. simpl in *.
    rewrite fold_left_app, <- C2.
    destruct (thrown (body env cb ev)) as [e |]; subst c.
    + simpl. repeat split; try apply C5; auto.
    + destruct (IH (S k) this1 C1 Hl1 ltac:(lia))
        as (H1 & H2 & H3 & H4 & H5 & H6).
      rewrite C4, <- app_assoc in H4.
      repeat split; auto; apply (same_frame_trans _ _ _ H5 C5).
Qed.

Lemma emit_spec ev this :
  registry (fst (emit env ev this))
    = fold_left act_registry (performed env ev (registry this)) (registry this) ∧
  snd (emit env ev this)
    = match first_throw env ev (registry this) with
      | Some e => Throws e
      | None => Returns ev
      end ∧
  deliveries (fst (emit env ev this))
    = deliveries this ++ map (λ cb, (cb, ev)) (called env ev (registry this)) ∧
  same_frame (fst (emit env ev this)) this.
Proof.
  unfold emit.
  destruct (decide (wf this)) as [Hwf | Hnwf].
  - pose proof (forEach_spec (callbacks this) ev (registry this)
      (length (registry this)) 0 this Hwf (holds_registry this Hwf) eq_refl)
      as (H1 & H2 & H3 & H4 & H5 & H6).
    rewrite drop_0 in *. fold (registry this).
    destruct (forEach env (callbacks this) ev (length (registry this)) 0 this)
      as [this1 c]. simpl in *. subst c.
    destruct (first_throw env ev (registry this)); simpl; repeat split;
      try apply H5; auto.
  - assert (Hnone : arrays this !! callbacks this = None).
    { apply lookup_ge_None. unfold wf in Hnwf. lia. }
    unfold registry. rewrite Hnone. simpl. rewrite app_nil_r.
    repeat split; auto. by rewrite Hnone.
Qed.

End Dispatch.

(** ** Who is called, and what the registry holds afterwards *)

Section Listeners.

Context (env : Env).

Lemma called_calm ev l : calm env ev l → called env ev l = l.
Proof.
  induction 1 as [| cb l Hcb _ IH]; simpl; [done |].
  rewrite Hcb. by rewrite IH.
Qed.

Lemma first_throw_calm ev l : calm env ev l → first_throw env ev l = None.
Proof.
  induction 1 as [| cb l Hcb _ IH]; simpl; [done |]. by rewrite Hcb.
Qed.

Lemma called_subset ev l cb : cb ∈ called env ev l → cb ∈ l.
Proof.
  induction l as [| c l IH]; simpl; [done |].
  destruct (thrown (body env c ev)).
  - intros ->%list_elem_of_singleton. left.
  - intros [-> | Hin]%elem_of_cons; [left | right; auto].
Qed.

Lemma effective_subset acts a : a ∈ effective acts → a ∈ acts.
Proof.
  induction acts as [| b acts IH]; simpl; [done |].
  destruct b; try (intros [-> | Hin]%elem_of_cons; [left | right; auto]).
  intros []%elem_of_nil.
Qed.

Lemma effective_no_throw acts : thrown acts = None → effective acts = acts.
Proof.
  induction acts as [| b acts IH]; simpl; [done |].
  destruct b; intros H; try (by rewrite IH); discriminate.
Qed.

Lemma performed_elem ev l a :
  a ∈ performed env ev l → ∃ cb, cb ∈ l ∧ a ∈ body env cb ev.
Proof.
  unfold performed. intros Hin%list_elem_of_In.
  apply in_concat in Hin as (acts & Hacts & Ha). apply in_map_iff in Hacts as (cb & <- & Hcb).
  exists cb. split.
  - eapply called_subset. by apply list_elem_of_In.
  - apply effective_subset. by apply list_elem_of_In.
Qed.

Lemma performed_calm_elem ev l cb a :
  calm env ev l → cb ∈ l → a ∈ body env cb ev → a ∈ performed env ev l.
Proof.
  intros Hcalm Hcb Ha. unfold performed. rewrite called_calm by done.
  apply list_elem_of_In, in_concat.
  exists (effective (body env cb ev)). split.
  - apply in_map_iff. exists cb. split; [done | by apply list_elem_of_In].
  - rewrite effective_no_throw; [by apply list_elem_of_In |].
    unfold calm in Hcalm. rewrite Forall_forall in Hcalm. by apply Hcalm.
Qed.

(** A callback nobody registers stays out of the registry. *)
Lemma stays_out victim acts : ∀ r,
  victim ∉ r → ActListen victim ∉ acts → victim ∉ fold_left act_registry acts r.
Proof.
  induction acts as [| a acts IH]; intros r Hr Hno; simpl; [done |].
  apply IH.
  - destruct a as [cb | cb | e]; simpl; auto.
    + intros [Hin | Hin%list_elem_of_singleton]%elem_of_app; [done |].
      subst. apply Hno. left.
    + intros [_ Hin]%list_elem_of_filter. done.
  - intros Hin. apply Hno. by right.
Qed.

(** Once its unsubscribe closure ran, and if nobody registers it again,
    a callback is out of the registry. *)
Lemma removed victim acts : ∀ r,
  ActUnsubscribe victim ∈ acts → ActListen victim ∉ acts →
  victim ∉ fold_left act_registry acts r.
Proof.
  induction acts as [| a acts IH]; intros r Hin Hno; simpl.
  - by apply elem_of_nil in Hin.
  - assert (Hno' : ActListen victim ∉ acts) by (intros H; apply Hno; by right).
    apply elem_of_cons in Hin as [<- | Hin]; [| by apply IH].
    apply stays_out; [| done]. simpl.
    intros [Hne _]%list_elem_of_filter. done.
Qed.

End Listeners.

(** ** The three asynchronous operations *)

Section Operations.

Context (env : Env).

Lemma complete_resume {T A} (call : Bridge → Bridge * Async T A) o this :
  complete call o this = resume (snd (call this)) o (fst (call this)).
Proof. unfold complete. by destruct (call this). Qed.


(** C3: for every requested version above the bridge's supported protocol
    version, [connect] makes no call on the transport, does not suspend,
    and resolves - whatever the transport would have done - with a
    [connect_error] event that carries the freshly allocated id, the
    bad-request code and the message "Unsupported protocol version"; on a
    fresh bridge, [connect(3, ...)] resolves with id 1. The bad-request
    code is a member of an imported enumeration; the code of the event is
    that member provided it is not 0 (the source writes [code || UNKNOWN_ERROR]). *)
Theorem connect_unsupported_version this requested message :
  (protocolVersion this < requested)%Z →
  BAD_REQUEST_ERROR env ≠ 0%Z →
  connect env requested message this
    = (set_lastGeneratedId (N.succ (lastGeneratedId this)) this,
       Settled (Resolved
         (ConnectEventError (N.succ (lastGeneratedId this))
            (BAD_REQUEST_ERROR env) "Unsupported protocol version"))) ∧
  requests (fst (connect env requested message this)) = requests this ∧
  (∀ o, snd (complete (connect env requested message) o this)
        = Resolved (ConnectEventError (N.succ (lastGeneratedId this))
                      (BAD_REQUEST_ERROR env) "Unsupported protocol version")) ∧
  (∀ o, complete (connect env 3 message) o (new_TonConnect env)
        = (set_lastGeneratedId 1 (new_TonConnect env),
           Resolved (ConnectEventError 1 (BAD_REQUEST_ERROR env)
                       "Unsupported protocol version"))).
Proof.
  intros Hv Hcode.
  assert (Hc : connect env requested message this
    = (set_lastGeneratedId (N.succ (lastGeneratedId this)) this,
       Settled (Resolved
         (ConnectEventError (N.succ (lastGeneratedId this))
            (BAD_REQUEST_ERROR env) "Unsupported protocol version")))).
  { unfold connect. simpl.
    destruct (Z.ltb_spec (protocolVersion this) requested) as [_ | Hge]; [| lia].
    unfold buildConnectError. simpl.
    destruct (Z.eqb_spec (BAD_REQUEST_ERROR env) 0) as [H0 | _]; [done | done]. }
  split; [exact Hc |]. split; [by rewrite Hc |]. split.
  - intros o. rewrite complete_resume, Hc. reflexivity.
  - intros o. unfold complete, connect. simpl.
    unfold buildConnectError. simpl.
    destruct (Z.eqb_spec (BAD_REQUEST_ERROR env) 0) as [H0 | _]; [done | done].
Qed.

(** C7: when the transport's promise is fulfilled with no response,
    [send] resolves with the error response of code 0 and message
    "Unknown error" under the id of the message it was given, at whatever
    later state the answer arrives; [send({ method: "getBalance", id: 5 })]
    resolves with [{ error: { code: 0, message: "Unknown error" }, id: 5 }]. *)
Theorem send_no_response this message :
  snd (complete (send message) (Resolved None) this)
    = Resolved (WalletResponseError 0 "Unknown error" (message_id message)) ∧
  (∀ later, snd (resume (snd (send message this)) (Resolved None) later)
            = Resolved (WalletResponseError 0 "Unknown error" (message_id message))) ∧
  snd (complete (send getBalance_5) (Resolved None) this)
    = Resolved (WalletResponseError 0 "Unknown error" (IdNumber 5)).
Proof. repeat split. Qed.

(** C8: when the method of the message is "disconnect" and the
    transport's promise is fulfilled - with a success response, an error
    response or no response - the [beforeunload] listener is not
    registered once [send] has resumed, whether or not it was registered
    before and at whatever later state the answer arrives. *)
Theorem send_disconnect_removes_unload_listener this message response :
  method message = "disconnect" →
  beforeunload (fst (complete (send message) (Resolved response) this)) = false ∧
  ∀ later,
    beforeunload (fst (resume (snd (send message this)) (Resolved response) later))
    = false.
Proof.
  intros Hm. unfold complete, send. simpl. rewrite Hm. simpl. done.
Qed.

(** C5: when the transport answers [connect] or [restoreConnection] with
    an event whose tag is "connect", and no registered callback throws on
    the event, the promise resolves with that event in which the payload's
    [device] is the value of [getDeviceInfo()] - whatever [device] the
    transport had put there - and that value has the platform computed by
    [getPlatform], the name "MyTonWallet", the version of package.json,
    maximal protocol version 2 and the two SendTransaction features. *)
Theorem connect_success_device this requested message i payload :
  (requested ≤ protocolVersion this)%Z →
  calm env (ConnectEventSuccess i
              {| items := items payload; device := Some (getDeviceInfo env) |})
       (registry this) →
  snd (complete (connect env requested message)
         (Resolved (Some (ConnectEventSuccess i payload))) this)
    = Resolved (ConnectEventSuccess i
                  {| items := items payload; device := Some (getDeviceInfo env) |}) ∧
  snd (complete (restoreConnection env)
         (Resolved (Some (ConnectEventSuccess i payload))) this)
    = Resolved (ConnectEventSuccess i
                  {| items := items payload; device := Some (getDeviceInfo env) |}) ∧
  getDeviceInfo env
    = {| platform := getPlatform env;
         appName := "MyTonWallet";
         appVersion := packageJson_version env;
         maxProtocolVersion := 2;
         features := [FeatureName "SendTransaction";
                      FeatureObject "SendTransaction" 4] |}.
Proof.
  intros Hv Hcalm. split; [| split; [| reflexivity]].
  - unfold complete, connect. simpl.
    destruct (Z.ltb_spec (protocolVersion this) requested) as [Hlt | _]; [lia |].
    simpl.
    match goal with
    | |- context [emit env ?ev ?st] =>
        destruct (emit_spec env ev st) as (_ & H2 & _)
    end.
    destruct (emit env _ _) as [this' c]. simpl in *. subst c.
    change (registry _) with (registry this).
    by rewrite (first_throw_calm env _ _ Hcalm).
  - unfold complete, restoreConnection. simpl.
    match goal with
    | |- context [emit env ?ev ?st] =>
        destruct (emit_spec env ev st) as (_ & H2 & _)
    end.
    destruct (emit env _ _) as [this' c]. simpl in *. subst c.
    change (registry _) with (registry this).
    by rewrite (first_throw_calm env _ _ Hcalm).
Qed.



(** C2 (the code at the failing input): on a bridge with one registered
    callback, [connect(3, ...)] resolves with the "Unsupported protocol
    version" event under id 1 and calls no callback, while
    [connect(2, ...)] over a transport that gives no response hands its
    own error event to the callback before returning it. *)
Theorem version_error_not_emitted message o :
  let this := fst (listen 0 (new_TonConnect env)) in
  snd (complete (connect env 3 message) o this)
    = Resolved (buildConnectError env 1 (Some "Unsupported protocol version")
                  (Some (BAD_REQUEST_ERROR env))) ∧
  deliveries (fst (complete (connect env 3 message) o this)) = [] ∧
  deliveries (fst (complete (connect env 2 message) (Resolved None) this))
    = [(0, buildConnectError env 1 None None)].
Proof.
  intros this. split; [reflexivity |]. split; [reflexivity |].
  unfold complete, connect. simpl.
  match goal with
  | |- context [emit env ?ev ?st] =>
      destruct (emit_spec env ev st) as (_ & _ & H & _);
      destruct (emit env ev st) as [this' c]
  end.
  simpl in *. rewrite H. by destruct (thrown _).
Qed.

End Operations.

(** ** Subscribing and unsubscribing *)

Section Registry.

Context (env : Env).

Lemma emit_excludes cb ev this :
  cb ∉ registry this →
  ∃ d, delivered_between this (fst (emit env ev this)) d ∧
       Forall (λ x, fst x ≠ cb) d.
Proof.
  intros Hout. destruct (emit_spec env ev this) as (_ & _ & Hd & _).
  eexists. split; [exact Hd |].
  apply Forall_forall. intros [c e] Hin%list_elem_of_In.
  apply in_map_iff in Hin as (c' & [= <- <-] & Hc'). simpl.
  intros ->. apply Hout. eapply called_subset. by apply list_elem_of_In.
Qed.

Lemma emit_keeps_out cb ev this :
  cb ∉ registry this →
  (∀ c, c ∈ registry this → ActListen cb ∉ body env c ev) →
  cb ∉ registry (fst (emit env ev this)).
Proof.
  intros Hout Hno. destruct (emit_spec env ev this) as (Hr & _).
  rewrite Hr. apply stays_out; [done |].
  intros (c & Hc & Ha)%performed_elem. by apply (Hno c).
Qed.

Lemma dispatch_all_excludes cb events : ∀ this,
  cb ∉ registry this →
  (∀ c ev, ActListen cb ∉ body env c ev) →
  ∃ d, delivered_between this (dispatch_all env events this) d ∧
       Forall (λ x, fst x ≠ cb) d.
Proof.
  induction events as [| ev events IH]; intros this Hout Hno.
  - exists []. split; [| constructor].
    unfold delivered_between. simpl. by rewrite app_nil_r.
  - destruct (emit_excludes cb ev this Hout) as (d1 & Hd1 & Hf1).
    destruct (IH (fst (emit env ev this))) as (d2 & Hd2 & Hf2); [| done |].
    { apply emit_keeps_out; [done |]. intros c _. apply Hno. }
    exists (d1 ++ d2). split; [| by apply Forall_app].
    unfold delivered_between in *. simpl. rewrite Hd2, Hd1.
    by rewrite app_assoc.
Qed.

(** C6: take a dispatch of [E] in which no callback throws and in which
    some registered callback invokes the unsubscribe closure of [victim].
    The dispatch calls every callback that was in the registry when it
    began - those registered before [victim], [victim] itself and those
    after it - once per registration and in registration order. The
    removal shows afterwards: unless a callback registered [victim] again
    during the dispatch, [victim] is out of the registry when the
    dispatch ends, and the dispatch of any later event makes no call on
    it. *)
Theorem unsubscribe_during_dispatch this E unsubscriber victim :
  calm env E (registry this) →
  unsubscriber ∈ registry this →
  ActUnsubscribe victim ∈ body env unsubscriber E →
  snd (emit env E this) = Returns E ∧
  delivered_between this (fst (emit env E this))
    (map (λ cb, (cb, E)) (registry this)) ∧
  ((∀ cb, cb ∈ registry this → ActListen victim ∉ body env cb E) →
   (victim ∉ registry (fst (emit env E this))) ∧
   ∀ E', ∃ d,
     delivered_between (fst (emit env E this))
       (fst (emit env E' (fst (emit env E this)))) d ∧
     Forall (λ x, fst x ≠ victim) d).
Proof.
  intros Hcalm Hin Hact.
  destruct (emit_spec env E this) as (Hr & Hc & Hd & _).
  rewrite (first_throw_calm env _ _ Hcalm) in Hc.
  rewrite (called_calm env _ _ Hcalm) in Hd.
  split; [exact Hc |]. split; [exact Hd |].
  intros Hno.
  assert (Hout : victim ∉ registry (fst (emit env E this))).
  { rewrite Hr. apply removed.
    - by apply (performed_calm_elem env E (registry this) unsubscriber).
    - intros (c & Hc' & Ha)%performed_elem. by apply (Hno c). }
  split; [exact Hout |].
  intros E'. by apply emit_excludes.
Qed.

(** C9: register the same callback by two calls of [listen]; the registry
    then holds it twice more. Invoking once either of the two closures
    that [listen] returned leaves the registry as it was before the two
    calls, without any occurrence of the callback: both registrations go
    at once. The next dispatch, of any event, makes no call on the
    callback; nor does any sequence of later dispatches, as long as no
    callback registers it again. *)
Theorem unsubscribe_removes_both_registrations this callback :
  wf this →
  let this1 := fst (listen callback this) in
  let unsubscribe1 := snd (listen callback this) in
  let this2 := fst (listen callback this1) in
  let unsubscribe2 := snd (listen callback this1) in
  registry this2 = registry this ++ [callback; callback] ∧
  ∀ u, u = unsubscribe1 ∨ u = unsubscribe2 →
    registry (u this2) = filter (λ c, c ≠ callback) (registry this) ∧
    (callback ∉ registry (u this2)) ∧
    (∀ E, ∃ d, delivered_between (u this2) (fst (emit env E (u this2))) d ∧
               Forall (λ x, fst x ≠ callback) d) ∧
    (∀ events,
       (∀ c ev, ActListen callback ∉ body env c ev) →
       ∃ d, delivered_between (u this2) (dispatch_all env events (u this2)) d ∧
            Forall (λ x, fst x ≠ callback) d).
Proof.
  intros Hwf this1 unsubscribe1 this2 unsubscribe2.
  assert (Hr2 : registry this2 = registry this ++ [callback; callback]).
  { unfold this2, this1.
    rewrite !registry_listen by auto using wf_listen.
    by rewrite <- app_assoc. }
  split; [exact Hr2 |].
  intros u Hu.
  assert (Hu' : u = unsubscribe callback) by (destruct Hu; subst; reflexivity).
  subst u.
  assert (Hreg : registry (unsubscribe callback this2)
                 = filter (λ c, c ≠ callback) (registry this)).
  { rewrite registry_unsubscribe, Hr2, filter_app.
    rewrite !filter_cons_False by (intros H; by apply H).
    by rewrite filter_nil, app_nil_r. }
  assert (Hout : callback ∉ registry (unsubscribe callback this2)).
  { rewrite Hreg. intros [Hne _]%list_elem_of_filter. done. }
  split; [exact Hreg |]. split; [exact Hout |]. split.
  - intros E. by apply emit_excludes.
  - intros events Hno. by apply dispatch_all_excludes.
Qed.

End Registry.

(** ** The id counter along every run *)

Section Counter.

Context (env : Env).

Lemma emit_counter ev this :
  lastGeneratedId (fst (emit env ev this)) = lastGeneratedId this.
Proof. by destruct (emit_spec env ev this) as (_ & _ & _ & H & _). Qed.

(** [connect] takes the next id, and uses it: in the event it resolves
    with, or as the second argument of the request it sends. *)
Lemma connect_id requested message this :
  lastGeneratedId (fst (connect env requested message this))
    = N.succ (lastGeneratedId this) ∧
  match snd (connect env requested message this) with
  | Settled s =>
      ∃ ev, s = Resolved ev ∧ event_id ev = N.succ (lastGeneratedId this)
  | Awaiting h k =>
      requests (fst (connect env requested message this)) !! h
        = Some {| name := "tonConnect_connect";
                  args := [ArgConnectRequest message;
                           ArgNumber (N.succ (lastGeneratedId this))] |} ∧
      frames_counter k
  end.
Proof.
  unfold connect. simpl.
  destruct (protocolVersion this <? requested)%Z; simpl.
  - split; [done |]. by eexists.
  - split; [done |]. split.
    + by rewrite lookup_app_r, Nat.sub_diag by lia.
    + intros r later.
      destruct r as [[i payload | i code msg | i] |]; simpl;
        by rewrite emit_counter.
Qed.

Lemma restoreConnection_id this :
  lastGeneratedId (fst (restoreConnection env this))
    = N.succ (lastGeneratedId this) ∧
  match snd (restoreConnection env this) with
  | Settled _ => False
  | Awaiting h k =>
      requests (fst (restoreConnection env this)) !! h
        = Some {| name := "tonConnect_reconnect";
                  args := [ArgNumber (N.succ (lastGeneratedId this))] |} ∧
      frames_counter k
  end.
Proof.
  unfold restoreConnection. simpl. split; [done |]. split.
  - by rewrite lookup_app_r, Nat.sub_diag by lia.
  - intros r later.
    destruct r as [[i payload | i code msg | i] |]; simpl;
      by rewrite emit_counter.
Qed.

(** [onDisconnect] takes the next id and dispatches the disconnect event
    that carries it. *)
Lemma onDisconnect_id this :
  lastGeneratedId (fst (onDisconnect env this)) = N.succ (lastGeneratedId this) ∧
  delivered_between this (fst (onDisconnect env this))
    (map (λ cb, (cb, DisconnectEvent (N.succ (lastGeneratedId this))))
       (called env (DisconnectEvent (N.succ (lastGeneratedId this)))
          (registry this))).
Proof.
  unfold onDisconnect, delivered_between.
  set (this1 := set_lastGeneratedId (N.succ (lastGeneratedId this)) this).
  destruct (emit_spec env (DisconnectEvent (N.succ (lastGeneratedId this))) this1)
    as (_ & _ & Hd & Hc & _).
  destruct (emit env _ this1) as [this2 [v | e]]; simpl in *; by rewrite Hc, Hd.
Qed.

Lemma send_counter message this :
  lastGeneratedId (fst (send message this)) = lastGeneratedId this ∧
  match snd (send message this) with
  | Settled _ => False
  | Awaiting h k => frames_counter k
  end.
Proof.
  unfold send. simpl. split; [done |].
  intros r later. simpl. by destruct (String.eqb _ _).
Qed.

Lemma sound_boot : sound (boot env).
Proof. unfold sound, boot. simpl. apply map_Forall_empty. Qed.

(** A step keeps the machine sound, and moves the counter by one exactly
    when its input is a call of [connect], [restoreConnection] or
    [onDisconnect]. *)
Lemma step_spec s i :
  sound s →
  sound (step env s i) ∧
  lastGeneratedId (bridge (step env s i))
    = if allocates i then N.succ (lastGeneratedId (bridge s))
      else lastGeneratedId (bridge s).
Proof.
  intros Hs. destruct i as [v m | | m | cb | cb | | | h o | h o]; simpl.
  - destruct (connect_id v m (bridge s)) as [Hc Hk].
    unfold started_event.
    destruct (connect env v m (bridge s)) as [b [r | h k]]; simpl in *.
    + done.
    + split; [| done]. apply map_Forall_insert_2; [apply Hk | exact Hs].
  - destruct (restoreConnection_id (bridge s)) as [Hc Hk].
    unfold started_event.
    destruct (restoreConnection env (bridge s)) as [b [r | h k]]; simpl in *.
    + done.
    + split; [| done]. apply map_Forall_insert_2; [apply Hk | exact Hs].
  - destruct (send_counter m (bridge s)) as [Hc Hk].
    unfold started_response.
    destruct (send m (bridge s)) as [b [r | h k]]; simpl in *.
    + done.
    + split; [| done]. apply map_Forall_insert_2; [apply Hk | exact Hs].
  - done.
  - done.
  - destruct (onDisconnect_id (bridge s)) as [Hc _].
    destruct (onDisconnect env (bridge s)) as [b c]. simpl in *. done.
  - split; [exact Hs |]. by destruct (beforeunload (bridge s)).
  - destruct (suspended s !! h) as [[k | k] |] eqn:Hh; [| done | done].
    pose proof (Hs h _ Hh) as Hk. simpl in Hk.
    destruct o as [r | e]; simpl.
    + specialize (Hk r (bridge s)).
      destruct (k r (bridge s)) as [b c]. simpl in *.
      split; [by apply map_Forall_delete | done].
    + split; [by apply map_Forall_delete | done].
  - destruct (suspended s !! h) as [[k | k] |] eqn:Hh; [done | | done].
    pose proof (Hs h _ Hh) as Hk. simpl in Hk.
    destruct o as [r | e]; simpl.
    + specialize (Hk r (bridge s)).
      destruct (k r (bridge s)) as [b c]. simpl in *.
      split; [by apply map_Forall_delete | done].
    + split; [by apply map_Forall_delete | done].
Qed.

Lemma sound_run inputs : ∀ s, sound s → sound (run env s inputs).
Proof.
  induction inputs as [| i inputs IH]; intros s Hs; simpl; [done |].
  apply IH. by apply step_spec.
Qed.

Lemma run_app s a b : run env s (a ++ b) = run env (run env s a) b.
Proof. unfold run. apply fold_left_app. Qed.

Lemma allocations_increase inputs : ∀ s,
  sound s →
  Forall (λ id, (lastGeneratedId (bridge s) < id)%N) (allocations env s inputs) ∧
  StronglySorted N.lt (allocations env s inputs).
Proof.
  induction inputs as [| i inputs IH]; intros s Hs; simpl.
  - split; constructor.
  - destruct (step_spec s i Hs) as [Hs' Hc].
    destruct (IH (step env s i) Hs') as [Hall Hsorted].
    unfold allocated. rewrite Hc in *.
    destruct (allocates i).
    + split.
      * constructor; [lia |].
        eapply Forall_impl; [exact Hall |]. simpl. intros id Hid. lia.
      * constructor; [exact Hsorted | exact Hall].
    + split; [exact Hall | exact Hsorted].
Qed.

Lemma increasing_NoDup (l : list N) : StronglySorted N.lt l → NoDup l.
Proof.
  induction 1 as [| id l _ IH Hall]; constructor; [| exact IH].
  intros Hin. rewrite Forall_forall in Hall. specialize (Hall id Hin). lia.
Qed.

(** C4: along every sequence of calls ([connect], [restoreConnection],
    [send], [listen], unsubscribe closures, [onDisconnect]), page unloads
    and transport answers, in any order, on a fresh bridge, the ids
    allocated by [connect], [restoreConnection] and [onDisconnect] come
    from one counter: each is greater than all those allocated before it,
    none occurs twice, and all are positive. *)
Theorem one_increasing_id_space inputs :
  StronglySorted N.lt (allocations env (boot env) inputs) ∧
  NoDup (allocations env (boot env) inputs) ∧
  Forall (λ id, (0 < id)%N) (allocations env (boot env) inputs).
Proof.
  destruct (allocations_increase inputs (boot env) sound_boot) as [Hall Hsorted].
  split; [exact Hsorted |]. split; [by apply increasing_NoDup | exact Hall].
Qed.

Lemma sends_keep_counter sends : ∀ s,
  sound s → forallb is_send sends = true →
  sound (run env s sends) ∧
  lastGeneratedId (bridge (run env s sends)) = lastGeneratedId (bridge s).
Proof.
  induction sends as [| i sends IH]; intros s Hs Hsends; simpl; [done |].
  simpl in Hsends. apply andb_prop in Hsends as [Hi Hrest].
  destruct (step_spec s i Hs) as [Hs' Hc].
  destruct (IH (step env s i) Hs' Hrest) as [Hs'' Hc'].
  split; [exact Hs'' |]. rewrite Hc', Hc. by destruct i.
Qed.

(** C10: [send] leaves the id counter alone, in its part before the
    [await] and in its part after it, whatever the transport's promise
    does and at whatever later state the answer arrives. So, on a bridge
    reached from a fresh one by any inputs, any number of [send] calls and
    of transport answers to them changes nothing to the id that the next
    [connect], [restoreConnection] or [onDisconnect] allocates. *)
Theorem send_leaves_counter inputs sends next :
  forallb is_send sends = true →
  allocated env (run env (boot env) (inputs ++ sends)) next
    = allocated env (run env (boot env) inputs) next ∧
  lastGeneratedId (bridge (run env (boot env) (inputs ++ sends)))
    = lastGeneratedId (bridge (run env (boot env) inputs)) ∧
  ∀ this message o later,
    lastGeneratedId (fst (send message this)) = lastGeneratedId this ∧
    lastGeneratedId (fst (resume (snd (send message this)) o later))
      = lastGeneratedId later.
Proof.
  intros Hsends. rewrite run_app.
  pose proof (sound_run inputs (boot env) sound_boot) as Hs.
  destruct (sends_keep_counter sends _ Hs Hsends) as [Hs' Hc].
  split; [| split; [exact Hc |]].
  - unfold allocated.
    destruct (step_spec _ next Hs) as [_ H1].
    destruct (step_spec _ next Hs') as [_ H2].
    rewrite H1, H2, Hc. done.
  - intros this message o later. split; [done |].
    unfold send. simpl. destruct o as [r | e]; simpl; [| done].
    by destruct (String.eqb _ _).
Qed.

End Counter.

(** ** The theorems at concrete pages *)

Lemma connect_unsupported_version_witness :
  (∀ o, snd (complete (connect quiet_page 3 sample_request) o
               (new_TonConnect quiet_page))
        = Resolved (ConnectEventError 1 1 "Unsupported protocol version")) ∧
  requests (fst (connect quiet_page 3 sample_request (new_TonConnect quiet_page)))
    = [].
Proof.
  destruct (connect_unsupported_version quiet_page (new_TonConnect quiet_page)
              3 sample_request) as (_ & Hreq & Hres & _).
  - simpl. unfold TONCONNECT_VERSION. lia.
  - simpl. discriminate.
  - split; [exact Hres | exact Hreq].
Defined.

Lemma send_disconnect_removes_unload_listener_witness :
  beforeunload
    (fst (complete (send disconnect_7)
            (Resolved (Some (WalletResponseError 100 "Unknown app" (IdNumber 7))))
            (addEventListeners (new_TonConnect quiet_page))))
  = false.
Proof.
  apply (send_disconnect_removes_unload_listener
           (addEventListeners (new_TonConnect quiet_page)) disconnect_7).
  reflexivity.
Defined.

Lemma connect_success_device_witness :
  snd (complete (connect quiet_page 2 sample_request)
         (Resolved (Some (ConnectEventSuccess 1
                            {| items := ["ton_addr"]; device := None |})))
         (fst (listen 0 (new_TonConnect quiet_page))))
  = Resolved (ConnectEventSuccess 1
                {| items := ["ton_addr"];
                   device := Some (getDeviceInfo quiet_page) |}).
Proof.
  apply (connect_success_device quiet_page
           (fst (listen 0 (new_TonConnect quiet_page))) 2 sample_request 1
           {| items := ["ton_addr"]; device := None |}).
  - simpl. unfold TONCONNECT_VERSION. lia.
  - repeat constructor.
Defined.


Lemma unsubscribe_during_dispatch_witness :
  let this := fst (listen 3 (fst (listen 2 (fst (listen 1 (new_TonConnect busy_page))))))
  in
  let E := ConnectEventError 1 0 "Unknown error" in
  delivered_between this (fst (emit busy_page E this)) [(1, E); (2, E); (3, E)] ∧
  2 ∉ registry (fst (emit busy_page E this)).
Proof.
  intros this E.
  destruct (unsubscribe_during_dispatch busy_page this E 1 2)
    as (_ & Hd & Hafter).
  - repeat constructor.
  - constructor.
  - constructor.
  - split; [exact Hd |]. apply Hafter.
    intros cb _ Hin%list_elem_of_In.
    destruct cb as [| [| [| [| cb]]]]; simpl in Hin; intuition discriminate.
Defined.

Lemma unsubscribe_removes_both_registrations_witness :
  registry (unsubscribe 4 (fst (listen 4 (fst (listen 4
              (fst (listen 0 (new_TonConnect quiet_page))))))))
  = [0].
Proof.
  assert (Hwf : wf (fst (listen 0 (new_TonConnect quiet_page))))
    by (unfold wf; simpl; lia).
  destruct (unsubscribe_removes_both_registrations quiet_page _ 4 Hwf)
    as [_ H].
  destruct (H (unsubscribe 4) (or_introl eq_refl)) as [Hr _].
  exact Hr.
Defined.

Lemma send_leaves_counter_witness :
  allocated quiet_page
    (run quiet_page (boot quiet_page)
       ([CallConnect 2 sample_request]
        ++ [CallSend getBalance_5; AnswerResponse 1 (Resolved None)]))
    CallRestoreConnection
  = Some 2%N.
Proof.
  destruct (send_leaves_counter quiet_page [CallConnect 2 sample_request]
              [CallSend getBalance_5; AnswerResponse 1 (Resolved None)]
              CallRestoreConnection eq_refl) as [H _].
  rewrite H. reflexivity.
Defined.

(** * Further properties of the bridge *)

(** ** The platform of the device *)

Lemma append_String a w post : String a w +:+ post = String a (w +:+ post).
Proof. reflexivity. Qed.

Lemma prefix_spec w : ∀ s,
  String.prefix w s = true ↔ ∃ post, s = w +:+ post.
Proof.
  induction w as [| a w IH]; intros s.
  - split; [intros _; by exists s | by destruct s].
  - destruct s as [| b s]; simpl.
    + split; [done | intros [post H]; discriminate].
    + destruct (Ascii.ascii_dec a b) as [<- | Hne].
      * rewrite IH.
        split; intros [post H]; exists post; rewrite append_String in *; congruence.
      * split; [done | intros [post H]; rewrite append_String in H; congruence].
Qed.

Lemma includes_spec w : ∀ s, includes w s = true ↔ occurs_in w s.
Proof.
  induction s as [| c s IH]; cbn [includes]; rewrite orb_true_iff, prefix_spec.
  - split.
    + intros [[post H] | H]; [| done]. by exists "", post.
    + intros (pre & post & H). left.
      destruct pre; [by exists post | discriminate].
  - rewrite IH. split.
    + intros [[post H] | (pre & post & H)].
      * by exists "", post.
      * exists (String c pre), post. by rewrite append_String, H.
    + intros (pre & post & H). destruct pre as [| c' pre].
      * left. by exists post.
      * right. exists pre, post. rewrite append_String in H. congruence.
Qed.

Lemma indexOf_found_spec arr x : indexOf_found arr x = true ↔ x ∈ arr.
Proof.
  unfold indexOf_found. rewrite existsb_exists, list_elem_of_In. split.
  - intros (y & Hy & Heq). apply String.eqb_eq in Heq. by subst.
  - intros Hx. exists x. split; [done | apply String.eqb_refl].
Qed.

Lemma indexOf_found_named x :
  indexOf_found named_platforms x
  = indexOf_found ["macOS"; "Macintosh"; "MacIntel"; "MacPPC"; "Mac68K"] x
    || indexOf_found ["iPhone"] x
    || indexOf_found ["iPad"; "iPod"] x
    || indexOf_found ["Win32"; "Win64"; "Windows"; "WinCE"] x.
Proof.
  unfold indexOf_found. simpl. rewrite !orb_false_r, <- !orb_assoc. reflexivity.
Qed.

(** X1: [getPlatform] yields no platform exactly when [navigator.platform]
    is none of the twelve names it knows, "Android" does not occur in the
    user agent and "Linux" does not occur in [navigator.platform]. *)
Theorem getPlatform_undefined env :
  getPlatform env = None ↔
  (navigator_platform (navigator env) ∉ named_platforms) ∧
  ¬ occurs_in "Android" (navigator_userAgent (navigator env)) ∧
  ¬ occurs_in "Linux" (navigator_platform (navigator env)).
Proof.
  rewrite <- indexOf_found_spec, <- !includes_spec, indexOf_found_named.
  unfold getPlatform.
  destruct (indexOf_found ["macOS"; _; _; _; _] _),
           (indexOf_found ["iPhone"] _),
           (indexOf_found ["iPad"; _] _),
           (indexOf_found ["Win32"; _; _; _] _),
           (includes "Android" _), (includes "Linux" _); simpl;
    split; try discriminate; try done; intros (H1 & H2 & H3); exfalso; auto.
Qed.

(** X2: when [navigator.platform] is one of the twelve names, the result
    of [getPlatform] is a platform and does not depend on the user agent
    (an "Android" there is not looked at). *)
Theorem getPlatform_named_ignores_userAgent env env' :
  navigator_platform (navigator env) = navigator_platform (navigator env') →
  navigator_platform (navigator env) ∈ named_platforms →
  getPlatform env = getPlatform env' ∧ is_Some (getPlatform env).
Proof.
  intros Heq Hin. apply indexOf_found_spec in Hin.
  rewrite indexOf_found_named in Hin.
  unfold getPlatform. rewrite <- Heq.
  destruct (indexOf_found ["macOS"; _; _; _; _] _); [by eauto |].
  destruct (indexOf_found ["iPhone"] _); [by eauto |].
  destruct (indexOf_found ["iPad"; _] _); [by eauto |].
  destruct (indexOf_found ["Win32"; _; _; _] _); [by eauto |].
  discriminate.
Qed.

(** ** Listeners: removal, registration and failure during a dispatch *)

Lemma filter_ne_absent (cb : Callback) (l : list Callback) :
  cb ∉ l → filter (λ c, c ≠ cb) l = l.
Proof.
  induction l as [| c l IH]; intros Hout; [done |].
  rewrite filter_cons_True.
  - rewrite IH; [done |]. intros Hin. apply Hout. by right.
  - intros ->. apply Hout. left.
Qed.

Lemma filter_ne_excludes (cb : Callback) (l : list Callback) : cb ∉ filter (λ c, c ≠ cb) l.
Proof. intros [Hne _]%list_elem_of_filter. done. Qed.

(** X3: the unsubscribe closure is idempotent - a second invocation
    leaves the contents of the registry as the first one left them - and
    invoking it for a callback that is not registered changes nothing to
    the contents of the registry. *)
Theorem unsubscribe_idempotent callback this :
  registry (unsubscribe callback (unsubscribe callback this))
    = registry (unsubscribe callback this) ∧
  (callback ∉ registry this →
   registry (unsubscribe callback this) = registry this).
Proof.
  rewrite !registry_unsubscribe. split.
  - apply filter_ne_absent, filter_ne_excludes.
  - apply filter_ne_absent.
Qed.

(** X4: on a bridge whose registry does not hold [callback], calling
    [listen(callback)] and then the closure it returned gives back the
    registry as it was: same callbacks, same order. *)
Theorem listen_then_unsubscribe callback this :
  wf this →
  callback ∉ registry this →
  registry (snd (listen callback this) (fst (listen callback this)))
    = registry this.
Proof.
  intros Hwf Hout.
  change (snd (listen callback this)) with (unsubscribe callback).
  rewrite registry_unsubscribe, registry_listen by done.
  rewrite filter_app, filter_ne_absent by done.
  rewrite filter_cons_False by (intros H; by apply H).
  by rewrite filter_nil, app_nil_r.
Qed.

Section Failure.

Context (env : Env).

Lemma called_until ev before thrower after reason :
  calm env ev before →
  thrown (body env thrower ev) = Some reason →
  called env ev (before ++ thrower :: after) = before ++ [thrower] ∧
  first_throw env ev (before ++ thrower :: after) = Some reason.
Proof.
  intros Hcalm Hthrow.
  induction Hcalm as [| cb before Hcb _ IH]; simpl.
  - by rewrite Hthrow.
  - rewrite Hcb. destruct IH as [-> ->]. done.
Qed.

(** X5: a callback that throws ends the dispatch. When the callbacks
    registered before it return normally, [emit] calls them and the
    thrower, in registration order, calls none of the callbacks
    registered after the thrower, and lets the exception escape. *)
Theorem emit_interrupted this ev before thrower after reason :
  registry this = before ++ thrower :: after →
  calm env ev before →
  thrown (body env thrower ev) = Some reason →
  snd (emit env ev this) = Throws reason ∧
  delivered_between this (fst (emit env ev this))
    (map (λ cb, (cb, ev)) (before ++ [thrower])).
Proof.
  intros Hreg Hcalm Hthrow.
  destruct (emit_spec env ev this) as (_ & Hc & Hd & _).
  destruct (called_until ev before thrower after reason Hcalm Hthrow)
    as [Hcalled Hfirst].
  rewrite Hreg, Hfirst in Hc. rewrite Hreg, Hcalled in Hd. done.
Qed.

(** A callback somebody registers and nobody removes is in the registry. *)
Lemma stays_in newcomer acts : ∀ r,
  newcomer ∈ r → ActUnsubscribe newcomer ∉ acts →
  newcomer ∈ fold_left act_registry acts r.
Proof.
  induction acts as [| a acts IH]; intros r Hr Hno; simpl; [done |].
  apply IH.
  - destruct a as [cb | cb | e]; simpl; auto.
    + apply elem_of_app. by left.
    + apply list_elem_of_filter. split; [| done].
      intros ->. apply Hno. left.
  - intros Hin. apply Hno. by right.
Qed.

Lemma added newcomer acts : ∀ r,
  ActListen newcomer ∈ acts → ActUnsubscribe newcomer ∉ acts →
  newcomer ∈ fold_left act_registry acts r.
Proof.
  induction acts as [| a acts IH]; intros r Hin Hno; simpl.
  - by apply elem_of_nil in Hin.
  - assert (Hno' : ActUnsubscribe newcomer ∉ acts)
      by (intros H; apply Hno; by right).
    apply elem_of_cons in Hin as [<- | Hin]; [| by apply IH].
    apply stays_in; [| done]. simpl. apply elem_of_app. right. left.
Qed.

(** X6: a callback registered by [listen] while an event is being
    dispatched is not called for that event on account of this
    registration - the dispatch calls the callbacks that were registered
    when it began, once each - but it is registered when the dispatch
    ends (unless a callback unsubscribed it meanwhile), and the dispatch
    of the next event calls it. *)
Theorem listen_during_dispatch this ev registrar newcomer :
  calm env ev (registry this) →
  registrar ∈ registry this →
  ActListen newcomer ∈ body env registrar ev →
  (∀ cb, cb ∈ registry this → ActUnsubscribe newcomer ∉ body env cb ev) →
  delivered_between this (fst (emit env ev this))
    (map (λ cb, (cb, ev)) (registry this)) ∧
  newcomer ∈ registry (fst (emit env ev this)) ∧
  ∀ ev', calm env ev' (registry (fst (emit env ev this))) →
    ∃ d, delivered_between (fst (emit env ev this))
           (fst (emit env ev' (fst (emit env ev this)))) d ∧
         (newcomer, ev') ∈ d.
Proof.
  intros Hcalm Hin Hact Hno.
  destruct (emit_spec env ev this) as (Hr & _ & Hd & _).
  rewrite (called_calm env _ _ Hcalm) in Hd.
  assert (Hnew : newcomer ∈ registry (fst (emit env ev this))).
  { rewrite Hr. apply added.
    - by apply (performed_calm_elem env ev (registry this) registrar).
    - intros (c & Hc & Ha)%performed_elem. by apply (Hno c). }
  split; [exact Hd |]. split; [exact Hnew |].
  intros ev' Hcalm'.
  destruct (emit_spec env ev' (fst (emit env ev this))) as (_ & _ & Hd' & _).
  rewrite (called_calm env _ _ Hcalm') in Hd'.
  eexists. split; [exact Hd' |].
  apply list_elem_of_In, in_map_iff. exists newcomer.
  split; [done | by apply list_elem_of_In].
Qed.

End Failure.

(** ** Connection life cycle: the unload listener *)

Section Lifecycle.

Context (env : Env).

(** Replaces the [emit] in the goal by its result, for a dispatch in which
    no callback throws. *)
Ltac dispatch_calm env Hcalm :=
  match goal with
  | |- context [emit env ?ev ?st] =>
      let Hft := fresh "Hft" in
      let Hcl := fresh "Hcl" in
      let Hc := fresh "Hc" in
      let Hd := fresh "Hd" in
      let Hbu := fresh "Hbu" in
      let c := fresh "c" in
      assert (Hft : first_throw env ev (registry st) = None)
        by exact (first_throw_calm env _ _ Hcalm);
      assert (Hcl : called env ev (registry st) = registry st)
        by exact (called_calm env _ _ Hcalm);
      destruct (emit_spec env ev st) as (_ & Hc & Hd & _ & Hbu & _);
      rewrite Hft in Hc; rewrite Hcl in Hd;
      destruct (emit env ev st) as [? c]; simpl in *; subst c
  end.

(** X7: when no registered callback throws on it, [onDisconnect]
    dispatches the disconnect event that carries the next id to every
    registered callback in registration order, makes no call on the
    transport, returns, and leaves no [beforeunload] listener: a page
    unload that follows sends nothing. *)
Theorem onDisconnect_notifies this :
  calm env (DisconnectEvent (N.succ (lastGeneratedId this))) (registry this) →
  snd (onDisconnect env this) = Returns tt ∧
  delivered_between this (fst (onDisconnect env this))
    (map (λ cb, (cb, DisconnectEvent (N.succ (lastGeneratedId this))))
       (registry this)) ∧
  beforeunload (fst (onDisconnect env this)) = false ∧
  requests (fst (onDisconnect env this)) = requests this ∧
  ∀ s, bridge s = fst (onDisconnect env this) →
       requests (bridge (step env s FireBeforeUnload)) = requests this.
Proof.
  intros Hcalm. unfold onDisconnect, delivered_between.
  set (this1 := set_lastGeneratedId (N.succ (lastGeneratedId this)) this).
  destruct (emit_spec env (DisconnectEvent (N.succ (lastGeneratedId this))) this1)
    as (_ & Hc & Hd & _ & _ & Hreq & _).
  change (registry this1) with (registry this) in *.
  rewrite (first_throw_calm env _ _ Hcalm) in Hc.
  rewrite (called_calm env _ _ Hcalm) in Hd.
  destruct (emit env _ this1) as [this2 c]. simpl in *. subst c. simpl.
  repeat split; auto.
  intros s ->. simpl. exact Hreq.
Qed.

(** X8: when a registered callback throws on the disconnect event,
    [onDisconnect] lets the exception escape and does not reach
    [removeEventListeners]: the [beforeunload] listener stays as it was,
    and the id is used up all the same. *)
Theorem onDisconnect_interrupted this before thrower after reason :
  registry this = before ++ thrower :: after →
  calm env (DisconnectEvent (N.succ (lastGeneratedId this))) before →
  thrown (body env thrower (DisconnectEvent (N.succ (lastGeneratedId this))))
    = Some reason →
  snd (onDisconnect env this) = Throws reason ∧
  beforeunload (fst (onDisconnect env this)) = beforeunload this ∧
  lastGeneratedId (fst (onDisconnect env this)) = N.succ (lastGeneratedId this).
Proof.
  intros Hreg Hcalm Hthrow. unfold onDisconnect.
  set (this1 := set_lastGeneratedId (N.succ (lastGeneratedId this)) this).
  destruct (emit_spec env (DisconnectEvent (N.succ (lastGeneratedId this))) this1)
    as (_ & Hc & _ & Hid & Hbu & _).
  change (registry this1) with (registry this) in *.
  destruct (called_until env _ before thrower after reason Hcalm Hthrow)
    as [_ Hfirst].
  rewrite Hreg, Hfirst in Hc.
  destruct (emit env _ this1) as [this2 c]. simpl in *. subst c. simpl.
  repeat split; auto.
Qed.

(** X9: when the transport answers [connect] (with a supported version)
    or [restoreConnection] with nothing, or with an event whose tag is
    not "connect", and no registered callback throws, the promise
    resolves with the event built for the missing response - the
    allocated id, the unknown-error code and "Unknown error" - or with
    the transport's event as it came; that event is handed to every
    registered callback in registration order, and the [beforeunload]
    listener is left as it was. *)
Theorem connect_without_success this requested message response :
  (requested ≤ protocolVersion this)%Z →
  (∀ i payload, response ≠ Some (ConnectEventSuccess i payload)) →
  calm env
    (default (ConnectEventError (N.succ (lastGeneratedId this))
                (UNKNOWN_ERROR env) "Unknown error") response)
    (registry this) →
  ∀ r,
    r = complete (connect env requested message) (Resolved response) this ∨
    r = complete (restoreConnection env) (Resolved response) this →
    snd r = Resolved
              (default (ConnectEventError (N.succ (lastGeneratedId this))
                          (UNKNOWN_ERROR env) "Unknown error") response) ∧
    delivered_between this (fst r)
      (map (λ cb, (cb, default (ConnectEventError (N.succ (lastGeneratedId this))
                                  (UNKNOWN_ERROR env) "Unknown error") response))
         (registry this)) ∧
    beforeunload (fst r) = beforeunload this.
Proof.
  intros Hv Hother Hcalm r Hr. unfold delivered_between.
  destruct Hr as [-> | ->].
  - unfold complete, connect. simpl.
    destruct (Z.ltb_spec (protocolVersion this) requested) as [Hlt | _]; [lia |].
    simpl.
    destruct response as [[i payload | i code msg | i] |];
      try (by destruct (Hother i payload)); simpl;
      dispatch_calm env Hcalm; done.
  - unfold complete, restoreConnection. simpl.
    destruct response as [[i payload | i code msg | i] |];
      try (by destruct (Hother i payload)); simpl;
      dispatch_calm env Hcalm; done.
Qed.

(** X10: a "connect" answer to [connect] (with a supported version) or to
    [restoreConnection] leaves the [beforeunload] listener registered,
    also when a callback throws on the event, since the listener is added
    before the dispatch; a page unload that follows sends one request,
    "tonConnect_deactivate", without arguments. *)
Theorem connect_success_arms_unload this requested message i payload :
  (requested ≤ protocolVersion this)%Z →
  ∀ this',
    this' = fst (complete (connect env requested message)
                   (Resolved (Some (ConnectEventSuccess i payload))) this) ∨
    this' = fst (complete (restoreConnection env)
                   (Resolved (Some (ConnectEventSuccess i payload))) this) →
    beforeunload this' = true ∧
    ∀ s, bridge s = this' →
      requests (bridge (step env s FireBeforeUnload))
      = requests this' ++ [{| name := "tonConnect_deactivate"; args := [] |}].
Proof.
  intros Hv this' Hthis'.
  assert (Hbu : beforeunload this' = true).
  { destruct Hthis' as [-> | ->].
    - unfold complete, connect. simpl.
      destruct (Z.ltb_spec (protocolVersion this) requested) as [Hlt | _]; [lia |].
      simpl.
      match goal with
      | |- context [emit env ?ev ?st] =>
          destruct (emit_spec env ev st) as (_ & _ & _ & _ & Hbu & _);
          destruct (emit env ev st) as [this2 c]; simpl in *; exact Hbu
      end.
    - unfold complete, restoreConnection. simpl.
      match goal with
      | |- context [emit env ?ev ?st] =>
          destruct (emit_spec env ev st) as (_ & _ & _ & _ & Hbu & _);
          destruct (emit env ev st) as [this2 c]; simpl in *; exact Hbu
      end. }
  split; [exact Hbu |].
  intros s Hs. simpl. rewrite Hs, Hbu. reflexivity.
Qed.

End Lifecycle.

(** ** What holds on every bridge reached from a fresh one *)

Section Reachable.

Context (env : Env).

Lemma same_constants_refl this : same_constants this this.
Proof. by unfold same_constants. Qed.

Lemma same_constants_trans a b c :
  same_constants a b → same_constants b c → same_constants a c.
Proof.
  unfold same_constants. intros (?&?&?) (?&?&?). repeat split; congruence.
Qed.

Lemma run_actions_constants acts : ∀ this,
  same_constants (fst (run_actions acts this)) this.
Proof.
  induction acts as [| [cb | cb | e] acts IH]; intros this; simpl.
  - apply same_constants_refl.
  - apply (same_constants_trans _ _ _ (IH _)). by unfold same_constants.
  - apply (same_constants_trans _ _ _ (IH _)). by unfold same_constants.
  - apply same_constants_refl.
Qed.

Lemma forEach_constants O ev n : ∀ k this,
  same_constants (fst (forEach env O ev n k this)) this.
Proof.
  induction n as [| n IH]; intros k this; simpl.
  - apply same_constants_refl.
  - destruct (default [] (arrays this !! O) !! k) as [cb |]; [| apply IH].
    pose proof (run_actions_constants (body env cb ev)
      (set_deliveries (deliveries this ++ [(cb, ev)]) this)) as Hc.
    unfold call. destruct (run_actions _ _) as [this1 [v | e]]; simpl in *.
    + apply (same_constants_trans _ _ _ (IH _ _)).
      apply (same_constants_trans _ _ _ Hc). by unfold same_constants.
    + apply (same_constants_trans _ _ _ Hc). by unfold same_constants.
Qed.

Lemma emit_constants ev this : same_constants (fst (emit env ev this)) this.
Proof.
  unfold emit.
  pose proof (forEach_constants (callbacks this) ev
    (length (default [] (arrays this !! callbacks this))) 0 this) as H.
  by destruct (forEach _ _ _ _ _ _) as [this1 [v | e]].
Qed.

Lemma emit_wf ev this : wf this → wf (fst (emit env ev this)).
Proof.
  intros Hwf. unfold emit.
  pose proof (forEach_spec env (callbacks this) ev (registry this)
    (length (registry this)) 0 this Hwf (holds_registry this Hwf) eq_refl)
    as (H & _).
  fold (registry this).
  by destruct (forEach _ _ _ _ _ _) as [this1 [v | e]].
Qed.

(** The code after the [await] of [connect] and [restoreConnection]. *)
Lemma connected_tame id :
  tame (λ response this,
    let (response, this) :=
      match response with
      | Some (ConnectEventSuccess i payload) =>
          (Some (ConnectEventSuccess i
                   {| items := items payload; device := Some (getDeviceInfo env) |}),
           addEventListeners this)
      | _ => (response, this)
      end in
    emit env (default (buildConnectError env id None None) response) this).
Proof.
  intros r this.
  destruct r as [[i payload | i code msg | i] |]; simpl;
    match goal with
    | |- context [emit env ?ev ?st] =>
        destruct (emit_spec env ev st) as (_ & _ & _ & Hid & _ & Hreq & _);
        pose proof (emit_constants ev st) as Hconst;
        pose proof (emit_wf ev st) as Hwf
    end; repeat split; auto; apply Hconst.
Qed.

Lemma sent_tame message :
  tame (λ (response : option WalletMethodMessage) this,
    let this :=
      if String.eqb (method message) "disconnect"
      then removeEventListeners this else this in
    (this, Returns (default (WalletResponseError 0 "Unknown error"
                               (message_id message)) response))) ∧
  silent (λ (response : option WalletMethodMessage) this,
    let this :=
      if String.eqb (method message) "disconnect"
      then removeEventListeners this else this in
    (this, Returns (default (WalletResponseError 0 "Unknown error"
                               (message_id message)) response))).
Proof.
  split; intros r this; simpl; by destruct (String.eqb _ _).
Qed.

Lemma prefix_append w s : String.prefix w (w +:+ s) = true.
Proof. apply prefix_spec. by exists s. Qed.

Lemma step_orderly s i :
  orderly s → wf (bridge s) →
  orderly (step env s i) ∧
  wf (bridge (step env s i)) ∧
  same_constants (bridge (step env s i)) (bridge s) ∧
  ∃ new, requests (bridge (step env s i)) = requests (bridge s) ++ new ∧
         Forall tonConnect_named new.
Proof.
  intros Hs Hwf.
  destruct i as [v m | | m | cb | cb | | | h o | h o]; simpl.
  - unfold started_event, connect. simpl.
    destruct (protocolVersion (bridge s) <? v)%Z; simpl.
    + split; [exact Hs |]. split; [exact Hwf |].
      split; [by unfold same_constants |].
      exists []. by rewrite app_nil_r.
    + split; [apply map_Forall_insert_2; [apply connected_tame | exact Hs] |].
      split; [exact Hwf |]. split; [by unfold same_constants |].
      eexists. split; [reflexivity |]. by repeat constructor.
  - unfold started_event, restoreConnection. simpl.
    split; [apply map_Forall_insert_2; [apply connected_tame | exact Hs] |].
    split; [exact Hwf |]. split; [by unfold same_constants |].
    eexists. split; [reflexivity |]. by repeat constructor.
  - unfold started_response, send. simpl.
    split; [apply map_Forall_insert_2; [apply sent_tame | exact Hs] |].
    split; [exact Hwf |]. split; [by unfold same_constants |].
    eexists. split; [reflexivity |].
    constructor; [apply prefix_append | constructor].
  - split; [exact Hs |]. split; [by apply wf_listen |].
    split; [by unfold same_constants |]. exists []. by rewrite app_nil_r.
  - split; [exact Hs |]. split; [by apply wf_unsubscribe |].
    split; [by unfold same_constants |]. exists []. by rewrite app_nil_r.
  - unfold onDisconnect.
    set (this1 := set_lastGeneratedId (N.succ (lastGeneratedId (bridge s))) (bridge s)).
    destruct (emit_spec env (DisconnectEvent (N.succ (lastGeneratedId (bridge s)))) this1)
      as (_ & _ & _ & _ & _ & Hreq & _).
    pose proof (emit_constants (DisconnectEvent (N.succ (lastGeneratedId (bridge s)))) this1)
      as Hconst.
    pose proof (emit_wf (DisconnectEvent (N.succ (lastGeneratedId (bridge s)))) this1 Hwf)
      as Hwf1.
    destruct (emit env _ this1) as [this2 [u | e]]; simpl in *;
      (split; [exact Hs |]; split; [exact Hwf1 |]; split; [exact Hconst |];
       exists []; by rewrite app_nil_r).
  - split; [exact Hs |].
    destruct (beforeunload (bridge s)); simpl.
    + split; [exact Hwf |]. split; [by unfold same_constants |].
      eexists. split; [reflexivity |]. by repeat constructor.
    + split; [exact Hwf |]. split; [by unfold same_constants |].
      exists []. by rewrite app_nil_r.
  - destruct (suspended s !! h) as [[k | k] |] eqn:Hh;
      try (split; [exact Hs |]; split; [exact Hwf |];
           split; [by unfold same_constants |]; exists []; by rewrite app_nil_r).
    pose proof (Hs h _ Hh) as Hk. simpl in Hk.
    destruct o as [r | e]; simpl.
    + destruct (Hk r (bridge s)) as (Hw & Hc & _ & Hr).
      destruct (k r (bridge s)) as [b c]. simpl in *.
      split; [by apply map_Forall_delete |]. split; [by apply Hw |].
      split; [exact Hc |]. exists []. by rewrite app_nil_r.
    + split; [by apply map_Forall_delete |]. split; [exact Hwf |].
      split; [by unfold same_constants |]. exists []. by rewrite app_nil_r.
  - destruct (suspended s !! h) as [[k | k] |] eqn:Hh;
      try (split; [exact Hs |]; split; [exact Hwf |];
           split; [by unfold same_constants |]; exists []; by rewrite app_nil_r).
    pose proof (Hs h _ Hh) as [Hk _]. simpl in Hk.
    destruct o as [r | e]; simpl.
    + destruct (Hk r (bridge s)) as (Hw & Hc & _ & Hr).
      destruct (k r (bridge s)) as [b c]. simpl in *.
      split; [by apply map_Forall_delete |]. split; [by apply Hw |].
      split; [exact Hc |]. exists []. by rewrite app_nil_r.
    + split; [by apply map_Forall_delete |]. split; [exact Hwf |].
      split; [by unfold same_constants |]. exists []. by rewrite app_nil_r.
Qed.

Lemma orderly_boot : orderly (boot env) ∧ wf (bridge (boot env)).
Proof.
  split; [apply map_Forall_empty |]. unfold wf. simpl. lia.
Qed.

Lemma run_orderly inputs : ∀ s,
  orderly s → wf (bridge s) →
  orderly (run env s inputs) ∧
  wf (bridge (run env s inputs)) ∧
  same_constants (bridge (run env s inputs)) (bridge s) ∧
  ∃ new, requests (bridge (run env s inputs)) = requests (bridge s) ++ new ∧
         Forall tonConnect_named new.
Proof.
  induction inputs as [| i inputs IH]; intros s Hs Hwf; simpl.
  - split; [exact Hs |]. split; [exact Hwf |].
    split; [apply same_constants_refl |]. exists []. by rewrite app_nil_r.
  - destruct (step_orderly s i Hs Hwf) as (Hs1 & Hwf1 & Hc1 & new1 & Hr1 & Hn1).
    destruct (IH _ Hs1 Hwf1) as (Hs2 & Hwf2 & Hc2 & new2 & Hr2 & Hn2).
    split; [exact Hs2 |]. split; [exact Hwf2 |].
    split; [by apply (same_constants_trans _ _ _ Hc2) |].
    exists (new1 ++ new2). split; [| by apply Forall_app].
    by rewrite Hr2, Hr1, app_assoc.
Qed.

Lemma constants_static inputs :
  protocolVersion (bridge (run env (boot env) inputs)) = 2%Z ∧
  wf (bridge (run env (boot env) inputs)).
Proof.
  destruct orderly_boot as [Hs Hwf].
  destruct (run_orderly inputs _ Hs Hwf) as (_ & Hwf' & (_ & Hp & _) & _).
  split; [by rewrite Hp | exact Hwf'].
Qed.

(** X11: on every bridge reached from a fresh one - by any calls, page
    unloads and transport answers, in any order - the fields set by the
    constructor are as it set them: [protocolVersion] is 2, [deviceInfo]
    is the descriptor computed at construction and [isWalletBrowser] is
    false. No method and no callback of the model writes them. *)
Theorem constants_never_change inputs :
  protocolVersion (bridge (run env (boot env) inputs)) = 2%Z ∧
  deviceInfo (bridge (run env (boot env) inputs)) = getDeviceInfo env ∧
  isWalletBrowser (bridge (run env (boot env) inputs)) = false.
Proof.
  destruct orderly_boot as [Hs Hwf].
  destruct (run_orderly inputs _ Hs Hwf) as (_ & _ & (Hd & Hp & Hb) & _).
  repeat split; [by rewrite Hp | by rewrite Hd | by rewrite Hb].
Qed.

(** X12: every request the bridge ever makes on the transport has a name
    that begins with "tonConnect_". *)
Theorem requests_are_namespaced inputs :
  Forall tonConnect_named (requests (bridge (run env (boot env) inputs))).
Proof.
  destruct orderly_boot as [Hs Hwf].
  destruct (run_orderly inputs _ Hs Hwf) as (_ & _ & _ & new & Hr & Hn).
  by rewrite Hr.
Qed.

(** X13: on every bridge reached from a fresh one, [connect] is decided
    by the constant 2: a requested version above 2 resolves at once
    without a request, and a requested version of at most 2 sends the
    request "tonConnect_connect" with the connect request and the next id
    as arguments, and waits for its answer. *)
Theorem version_gate_is_two inputs requested message :
  let this := bridge (run env (boot env) inputs) in
  ((2 < requested)%Z →
   (∃ ev, snd (connect env requested message this) = Settled (Resolved ev)) ∧
   requests (fst (connect env requested message this)) = requests this) ∧
  ((requested ≤ 2)%Z →
   (∃ k, snd (connect env requested message this)
         = Awaiting (length (requests this)) k) ∧
   requests (fst (connect env requested message this))
   = requests this ++
     [{| name := "tonConnect_connect";
         args := [ArgConnectRequest message;
                  ArgNumber (N.succ (lastGeneratedId this))] |}]).
Proof.
  intros this.
  destruct (constants_static inputs) as [Hp _].
  fold this in Hp. unfold connect. simpl. rewrite Hp.
  split; intros Hv.
  - destruct (Z.ltb_spec 2 requested) as [_ | Hge]; [| lia].
    simpl. split; [by eexists | done].
  - destruct (Z.ltb_spec 2 requested) as [Hlt | _]; [lia |].
    simpl. split; [by eexists | done].
Qed.

(** X14: on every bridge reached from a fresh one, [listen(callback)]
    puts [callback] at the end of the registry and keeps every earlier
    registration in place. *)
Theorem listen_appends inputs callback :
  registry (bridge (run env (boot env) (inputs ++ [CallListen callback])))
    = registry (bridge (run env (boot env) inputs)) ++ [callback].
Proof.
  rewrite run_app. simpl.
  destruct (constants_static inputs) as (_ & Hwf).
  by apply registry_listen.
Qed.

Lemma allocating_cons i inputs :
  allocating (i :: inputs)
  = (if allocates i then 1 else 0) + allocating inputs.
Proof.
  unfold allocating. rewrite filter_cons.
  destruct (allocates i); case_decide; simpl; congruence.
Qed.

Lemma counter_run inputs : ∀ s,
  sound s →
  lastGeneratedId (bridge (run env s inputs))
    = (lastGeneratedId (bridge s) + N.of_nat (allocating inputs))%N ∧
  allocations env s inputs
    = map (λ j, (lastGeneratedId (bridge s) + N.of_nat j)%N)
        (seq 1 (allocating inputs)).
Proof.
  induction inputs as [| i inputs IH]; intros s Hs.
  - change (allocating []) with 0. simpl. split; [lia | done].
  - rewrite allocating_cons. simpl run. simpl allocations.
    destruct (step_spec env s i Hs) as [Hs' Hc].
    destruct (IH _ Hs') as [Hrun Hall].
    unfold allocated. rewrite Hrun, Hall, Hc.
    destruct (allocates i); simpl.
    + split; [lia |]. f_equal; [lia |].
      rewrite <- (seq_shift (allocating inputs) 1), map_map.
      apply map_ext. intros j. lia.
    + done.
Qed.

(** X15: the ids are the numbers 1, 2, 3, ... in the order of the calls:
    along every run from a fresh bridge, the k-th call of [connect],
    [restoreConnection] or [onDisconnect] allocates the id k, whatever
    else happens in between, and the counter is the number of such calls
    made so far. *)
Theorem ids_are_consecutive inputs :
  allocations env (boot env) inputs
    = map N.of_nat (seq 1 (allocating inputs)) ∧
  lastGeneratedId (bridge (run env (boot env) inputs))
    = N.of_nat (allocating inputs).
Proof.
  destruct (counter_run inputs (boot env) (sound_boot env)) as [Hrun Hall].
  split; [| by rewrite Hrun].
  rewrite Hall. apply map_ext. intros j. simpl. lia.
Qed.

Lemma sends_silent sends : ∀ s,
  orderly s → wf (bridge s) → forallb is_send sends = true →
  deliveries (bridge (run env s sends)) = deliveries (bridge s) ∧
  registry (bridge (run env s sends)) = registry (bridge s).
Proof.
  induction sends as [| i sends IH]; intros s Hs Hwf Hsends; [done |].
  simpl in Hsends. apply andb_prop in Hsends as [Hi Hrest].
  destruct (step_orderly s i Hs Hwf) as (Hs1 & Hwf1 & _).
  destruct (IH _ Hs1 Hwf1 Hrest) as [Hd Hr].
  simpl run. rewrite Hd, Hr. clear IH Hd Hr Hs1 Hwf1.
  destruct i as [v m | | m | cb | cb | | | h o | h o]; try discriminate.
  - done.
  - simpl. destruct (suspended s !! h) as [[k | k] |] eqn:Hh; [done | | done].
    pose proof (Hs h _ Hh) as [_ Hk]. simpl in Hk.
    destruct o as [r | e]; simpl; [| done].
    specialize (Hk r (bridge s)). by destruct (k r (bridge s)).
Qed.

(** X16: [send] calls no callback and does not touch the registry: on a
    bridge reached from a fresh one, any number of [send] calls and of
    transport answers to them, fulfilled or rejected, leaves the record of
    calls made on callbacks and the contents of the registry as they
    were. *)
Theorem send_is_silent inputs sends :
  forallb is_send sends = true →
  deliveries (bridge (run env (boot env) (inputs ++ sends)))
    = deliveries (bridge (run env (boot env) inputs)) ∧
  registry (bridge (run env (boot env) (inputs ++ sends)))
    = registry (bridge (run env (boot env) inputs)).
Proof.
  intros Hsends. rewrite run_app.
  destruct orderly_boot as [Hs Hwf].
  destruct (run_orderly inputs _ Hs Hwf) as (Hs' & Hwf' & _).
  by apply sends_silent.
Qed.

End Reachable.

(** * Properties of the activity list *)

Section Grouping.

Context (getDayStartAt : Z → Z).

Local Abbreviation visit := (Activity.visit getDayStartAt).
Local Abbreviation groupTransactions := (Activity.groupTransactions getDayStartAt).
Local Abbreviation day := (Activity.day getDayStartAt).
Local Abbreviation of_one_day := (Activity.of_one_day getDayStartAt).
Local Abbreviation transactions := Activity.transactions.
Local Abbreviation datetime := Activity.datetime.
Local Abbreviation adjacent_differ := Activity.adjacent_differ.

Lemma drop_cons_inv {A} (l : list A) i x rest :
  drop i l = x :: rest → drop (S i) l = rest ∧ l !! (i + 1) = head rest.
Proof.
  revert l. induction i as [| i IH]; intros l H.
  - rewrite drop_0 in H. subst l. by destruct rest.
  - destruct l as [| a l]; [discriminate |]. apply (IH l H).
Qed.

(** The loop, read on the elements still to visit alone. *)
Lemma visit_step all transaction rest index older current :
  drop index all = transaction :: rest →
  visit all (transaction :: rest) index older current
  = let current' :=
      {| Activity.datetime := datetime current;
         Activity.transactions := transactions current ++ [transaction] |} in
    match rest with
    | [] => older ++ [current']
    | next :: _ =>
        if (datetime current =? day next)%Z
        then visit all rest (S index) older current'
        else visit all rest (S index) (older ++ [current'])
               {| Activity.datetime := day next; Activity.transactions := [] |}
    end.
Proof.
  intros [Hd Hl]%drop_cons_inv. simpl. rewrite Hl.
  destruct rest as [| next rest]; simpl; reflexivity.
Qed.

Lemma visit_concat all rest : ∀ index older current,
  drop index all = rest →
  concat (map transactions (visit all rest index older current))
  = concat (map transactions older) ++ transactions current ++ rest.
Proof.
  induction rest as [| t rest IH]; intros index older current Hdrop.
  - simpl. rewrite map_app, concat_app. simpl. by rewrite !app_nil_r.
  - rewrite (visit_step all t rest index older current Hdrop).
    destruct (drop_cons_inv _ _ _ _ Hdrop) as [Hd _]. cbv zeta.
    destruct rest as [| next rest'].
    + rewrite map_app, concat_app. simpl. by rewrite !app_nil_r.
    + destruct (datetime current =? day next)%Z.
      * rewrite (IH _ _ _ Hd). simpl. by rewrite <- !app_assoc.
      * rewrite (IH _ _ _ Hd), map_app, concat_app. simpl.
        by rewrite !app_nil_r, <- !app_assoc.
Qed.

Lemma grouping_concat all :
  concat (map transactions (groupTransactions all)) = all ∧
  (groupTransactions all = [] ↔ all = []).
Proof.
  destruct all as [| first rest]; [done |].
  unfold Activity.groupTransactions.
  pose proof (visit_concat (first :: rest) (first :: rest) 0 []
    {| Activity.datetime := getDayStartAt (Activity.timestamp first);
       Activity.transactions := [] |} eq_refl) as H.
  split; [exact H |].
  split; [| done]. intros Hnil. rewrite Hnil in H. discriminate.
Qed.

(** X17: grouping loses nothing and reorders nothing: the transactions of
    the groups, read group after group, are the transactions that were
    grouped; in particular no transactions give no group. *)
Theorem groups_partition all :
  concat (map transactions (groupTransactions all)) = all ∧
  (groupTransactions all = [] ↔ all = []).
Proof. apply grouping_concat. Qed.

Lemma visit_nonempty all rest : ∀ index older current,
  drop index all = rest →
  Forall (λ g, transactions g ≠ []) older →
  transactions current ≠ [] ∨ rest ≠ [] →
  Forall (λ g, transactions g ≠ []) (visit all rest index older current).
Proof.
  induction rest as [| t rest IH]; intros index older current Hdrop Holder Hcur.
  - simpl. apply Forall_app. split; [done |].
    constructor; [| constructor]. by destruct Hcur.
  - rewrite (visit_step all t rest index older current Hdrop).
    destruct (drop_cons_inv _ _ _ _ Hdrop) as [Hd _]. cbv zeta.
    assert (Hne : transactions current ++ [t] ≠ [])
      by (by destruct (transactions current)).
    destruct rest as [| next rest'].
    + apply Forall_app. split; [done |]. by repeat constructor.
    + destruct (datetime current =? day next)%Z.
      * apply (IH _ _ _ Hd); [done | by left].
      * apply (IH _ _ _ Hd); [| by right].
        apply Forall_app. split; [done |]. by repeat constructor.
Qed.

Lemma visit_of_one_day all rest : ∀ index older current,
  drop index all = rest →
  Forall of_one_day older →
  of_one_day current →
  (∀ t, head rest = Some t → day t = datetime current) →
  Forall of_one_day (visit all rest index older current).
Proof.
  induction rest as [| t rest IH]; intros index older current Hdrop Holder Hcur Hnext.
  - simpl. apply Forall_app. split; [done |]. by repeat constructor.
  - rewrite (visit_step all t rest index older current Hdrop).
    destruct (drop_cons_inv _ _ _ _ Hdrop) as [Hd _]. cbv zeta.
    assert (Hcur' : of_one_day
      {| Activity.datetime := datetime current;
         Activity.transactions := transactions current ++ [t] |}).
    { unfold Activity.of_one_day. simpl. apply Forall_app. split; [exact Hcur |].
      constructor; [by apply Hnext | constructor]. }
    destruct rest as [| next rest'].
    + apply Forall_app. split; [done |]. by repeat constructor.
    + destruct (Z.eqb_spec (datetime current) (day next)) as [Heq | Hne].
      * apply (IH _ _ _ Hd); [done | done |].
        intros t' [= <-]. by rewrite <- Heq.
      * apply (IH _ _ _ Hd).
        -- apply Forall_app. split; [done |]. by repeat constructor.
        -- unfold Activity.of_one_day. simpl. constructor.
        -- by intros t' [= <-].
Qed.

Lemma grouping_days all :
  Forall (λ g, transactions g ≠ [] ∧ of_one_day g) (groupTransactions all).
Proof.
  destruct all as [| first rest]; [constructor |].
  unfold Activity.groupTransactions. apply Forall_and. split.
  - apply visit_nonempty; [done | constructor | by right].
  - apply visit_of_one_day; [done | constructor | constructor |].
    by intros t [= <-].
Qed.

(** X18: every group holds at least one transaction, and every
    transaction of a group is of the day the group is headed by:
    [getDayStartAt] of its timestamp is the group's [datetime]. *)
Theorem groups_are_days all :
  Forall (λ g, transactions g ≠ [] ∧ of_one_day g) (groupTransactions all).
Proof. apply grouping_days. Qed.

Lemma adjacent_differ_snoc ds a b :
  adjacent_differ (ds ++ [a]) → a ≠ b → adjacent_differ ((ds ++ [a]) ++ [b]).
Proof.
  intros Hadj Hne i d1 d2 H1 H2.
  destruct (decide (S i < length (ds ++ [a]))) as [Hlt | Hge].
  - rewrite lookup_app_l in H1 by lia. rewrite lookup_app_l in H2 by lia.
    by apply (Hadj i).
  - rewrite length_app in Hge. simpl in Hge.
    apply lookup_lt_Some in H2 as Hlen. rewrite !length_app in Hlen. simpl in Hlen.
    assert (i = length ds) as -> by lia.
    rewrite lookup_app_l in H1 by (rewrite length_app; simpl; lia).
    rewrite lookup_app_r in H1 by lia. rewrite Nat.sub_diag in H1.
    rewrite lookup_app_r in H2 by (rewrite length_app; simpl; lia).
    rewrite length_app in H2. simpl in H2.
    replace (S (length ds) - (length ds + 1)) with 0 in H2 by lia.
    simpl in *. congruence.
Qed.

Lemma visit_adjacent all rest : ∀ index older current,
  drop index all = rest →
  adjacent_differ (map datetime (older ++ [current])) →
  adjacent_differ (map datetime (visit all rest index older current)).
Proof.
  induction rest as [| t rest IH]; intros index older current Hdrop Hadj.
  - exact Hadj.
  - rewrite (visit_step all t rest index older current Hdrop).
    destruct (drop_cons_inv _ _ _ _ Hdrop) as [Hd _]. cbv zeta.
    assert (Hsame : map datetime
      (older ++ [{| Activity.datetime := datetime current;
                    Activity.transactions := transactions current ++ [t] |}])
      = map datetime (older ++ [current])) by (by rewrite !map_app).
    destruct rest as [| next rest'].
    + by rewrite Hsame.
    + destruct (Z.eqb_spec (datetime current) (day next)) as [Heq | Hne].
      * apply (IH _ _ _ Hd). by rewrite Hsame.
      * apply (IH _ _ _ Hd). rewrite map_app, Hsame. simpl.
        rewrite map_app. simpl. apply adjacent_differ_snoc; [| done].
        by rewrite map_app in Hadj.
Qed.

Lemma grouping_neighbours all :
  adjacent_differ (map datetime (groupTransactions all)).
Proof.
  destruct all as [| first rest].
  - intros i d1 d2 H. by destruct i.
  - unfold Activity.groupTransactions. apply visit_adjacent; [done |].
    intros i d1 d2 _ H. by destruct i.
Qed.

(** X19: two groups that follow each other are headed by different days:
    a group is never cut in two. *)
Theorem neighbour_groups_differ all :
  adjacent_differ (map datetime (groupTransactions all)).
Proof. apply grouping_neighbours. Qed.

Lemma decreasing_days gs :
  Forall (λ g, transactions g ≠ [] ∧ of_one_day g) gs →
  adjacent_differ (map datetime gs) →
  StronglySorted (λ a b, (day b ≤ day a)%Z) (concat (map transactions gs)) →
  StronglySorted (λ a b, (b < a)%Z) (map datetime gs).
Proof.
  induction gs as [| g gs IH]; intros Hgs Hadj Hsorted; [constructor |].
  apply Forall_cons in Hgs as [[Hne Hday] Hgs]. simpl in Hsorted.
  assert (Htail : StronglySorted (λ a b, (b < a)%Z) (map datetime gs)).
  { apply IH; [done | |].
    - intros i d1 d2 H1 H2. by apply (Hadj (S i)).
    - by apply StronglySorted_app_1_r in Hsorted. }
  simpl. constructor; [exact Htail |].
  destruct gs as [| g1 gs]; [constructor |].
  apply Forall_cons in Hgs as [[Hne1 Hday1] _].
  assert (Hlt : (datetime g1 < datetime g)%Z).
  { assert (Hneq : datetime g ≠ datetime g1) by (by apply (Hadj 0)).
    destruct (transactions g) as [| t ts] eqn:Ht; [done |].
    destruct (transactions g1) as [| t1 ts1] eqn:Ht1; [done |].
    assert (Hle : (day t1 ≤ day t)%Z).
    { apply (StronglySorted_app_1_elem_of _ _ _ t t1 Hsorted); [left |].
      simpl. rewrite Ht1. left. }
    unfold Activity.of_one_day in Hday, Hday1. rewrite Ht in Hday. rewrite Ht1 in Hday1.
    apply Forall_cons in Hday as [Hd _]. apply Forall_cons in Hday1 as [Hd1 _].
    lia. }
  simpl. constructor; [exact Hlt |].
  simpl in Htail. apply StronglySorted_inv in Htail as [_ Hall].
  eapply Forall_impl; [exact Hall |]. simpl. intros d Hd. lia.
Qed.

(** X20: when the transactions come latest day first (the day never
    grows along the list), the groups are headed by strictly decreasing
    days: every day occurs once. *)
Theorem ordered_days_occur_once all :
  StronglySorted (λ a b, (day b ≤ day a)%Z) all →
  StronglySorted (λ a b, (b < a)%Z) (map datetime (groupTransactions all)).
Proof.
  intros Hsorted. apply decreasing_days.
  - apply grouping_days.
  - apply grouping_neighbours.
  - by rewrite (proj1 (grouping_concat all)).
Qed.

End Grouping.

Section Memo.

Context (getDayStartAt : Z → Z)
        (notTiny : string → option Z → bool)
        (mergedTxIds : Activity.Props → Completion (list string)).

Local Abbreviation transactionsMemo :=
  (Activity.transactionsMemo getDayStartAt notTiny mergedTxIds).
Local Abbreviation filterShown := (Activity.filterShown notTiny).
Local Abbreviation shown := (Activity.shown notTiny).
Local Abbreviation kept := (Activity.kept notTiny).

Lemma read_own {A} (o : gmap string A) key :
  match Activity.read o key with
  | Activity.Own value => Some value
  | _ => None
  end = o !! key.
Proof.
  unfold Activity.read. destruct (o !! key); [done |]. by case_bool_decide.
Qed.

Lemma filterShown_selected p c s m d :
  Activity.currentTokenSlug p = Some (String c s) →
  Activity.byTxId p = Some m →
  (Activity.areTinyTransfersHidden p = false ∨
   Activity.decimalsOf p (String c s) = Returns d) →
  ∀ txIds,
    filterShown p
      (map (λ txId, Activity.byTxId p ≫= (λ m,
              match Activity.read m txId with
              | Activity.Own transaction => Some transaction
              | _ => None
              end)) txIds)
    = Returns
        (omap (λ txId, m !! txId ≫= (λ t,
                 if kept p (String c s) d t then Some t else None)) txIds).
Proof.
  intros Hslug Hby Htoken txIds.
  induction txIds as [| txId txIds IH]; [done |].
  cbn [map Activity.filterShown]. rewrite IH. rewrite Hby. simpl.
  rewrite read_own. unfold Activity.kept.
  destruct (m !! txId) as [t |]; simpl; [| done].
  rewrite Hslug. simpl.
  destruct (Activity.slug t) as [[| c' s'] |] eqn:Ht; simpl; try done.
  destruct (decide (String c' s' = String c s)) as [Heq | Hne].
  - rewrite Heq. rewrite !bool_decide_eq_true_2 by done. simpl.
    destruct (Activity.areTinyTransfersHidden p); simpl; [| done].
    destruct Htoken as [? | Hd]; [done |].
    rewrite Hd. by destruct (notTiny _ _).
  - rewrite !bool_decide_eq_false_2 by congruence. done.
Qed.

(** X21: take a selected token and [byTxId] there; let [ids] be the own
    entry of [txIdsBySlug] for the token, or no ids when [txIdsBySlug]
    has no such property at all (a slug that only names a property of
    [Object.prototype] is a different case: there [txIds] is no array);
    and let tiny transfers be shown, or the read of the token's
    [decimals] give [d] (the decimals of its own entry in
    [tokensBySlug], or [undefined] on an inherited property). Then the
    memo returns groups, and the transactions of the groups are, in the
    order of [ids], those own entries of [byTxId] that carry the selected
    slug and - when tiny transfers are hidden - pass the amount test with
    [d]. Ids without an own entry in [byTxId] are passed over. *)
Theorem memo_for_selected_token p c s m ids d :
  Activity.currentTokenSlug p = Some (String c s) →
  Activity.byTxId p = Some m →
  (Activity.read (default ∅ (Activity.txIdsBySlug p)) (String c s)
     = Activity.Own ids ∨
   Activity.read (default ∅ (Activity.txIdsBySlug p)) (String c s)
     = Activity.Undefined ∧ ids = []) →
  (Activity.areTinyTransfersHidden p = false ∨
   Activity.decimalsOf p (String c s) = Returns d) →
  ∃ groups,
    transactionsMemo p = Returns (Some groups) ∧
    concat (map Activity.transactions groups)
    = omap (λ txId, m !! txId ≫= (λ t,
              if kept p (String c s) d t then Some t else None)) ids.
Proof.
  intros Hslug Hby Hids Htoken.
  pose proof (filterShown_selected p c s m d Hslug Hby Htoken ids) as Hf.
  unfold Activity.transactionsMemo, Activity.selectTxIds.
  rewrite Hslug.
  assert (Hread :
    match Activity.read (default ∅ (Activity.txIdsBySlug p)) (String c s) with
    | Activity.Own ids => Activity.IdArray ids
    | Activity.Inherited => Activity.NotAnArray
    | Activity.Undefined => Activity.IdArray []
    end = Activity.IdArray ids).
  { destruct Hids as [-> | [-> ->]]; reflexivity. }
  rewrite Hread. unfold Activity.allTransactions.
  rewrite Hby in Hf |- *. rewrite Hf.
  eexists. split; [reflexivity |].
  apply (grouping_concat getDayStartAt).
Qed.

Lemma decimalsOf_throws p key e :
  Activity.decimalsOf p key = Throws e → e = Activity.TypeError.
Proof.
  unfold Activity.decimalsOf.
  destruct (Activity.tokensBySlug p) as [tokens |]; [| by intros [= <-]].
  destruct (Activity.read tokens key); [done | done | by intros [= <-]].
Qed.

Lemma shown_throws p x e : shown p x = Throws e → e = Activity.TypeError.
Proof.
  unfold Activity.shown. destruct x as [t |]; [| done].
  destruct (Activity.slug t) as [[| c s] |]; try done.
  destruct (_ || _); [| done].
  destruct (negb _); [done |].
  destruct (Activity.decimalsOf p (String c s)) as [d | e'] eqn:Hd; [done |].
  intros [= <-]. by apply (decimalsOf_throws p (String c s)).
Qed.

Lemma filterShown_throws p l e :
  filterShown p l = Throws e → e = Activity.TypeError.
Proof.
  induction l as [| x l IH]; [done |]. simpl.
  destruct (shown p x) as [keep | e'] eqn:Hx.
  - destruct (filterShown p l) as [k | e'']; [done |].
    intros [= <-]. by apply IH.
  - intros [= <-]. by apply (shown_throws p x).
Qed.

Lemma filterShown_offender p l x :
  x ∈ l → shown p x = Throws Activity.TypeError →
  filterShown p l = Throws Activity.TypeError.
Proof.
  induction l as [| y l IH]; intros Hin Hx; [by apply elem_of_nil in Hin |].
  simpl. apply elem_of_cons in Hin as [<- | Hin].
  - by rewrite Hx.
  - rewrite (IH Hin Hx).
    destruct (shown p y) as [keep | e] eqn:Hy; [done |].
    by rewrite (shown_throws p y e Hy).
Qed.

(** X22: with a token selected and tiny transfers hidden, if the read of
    the token's [decimals] throws - [tokensBySlug] is not there, or has
    no property of that name, own or inherited - and one of the ids
    listed for the token in [txIdsBySlug] has an own entry in [byTxId]
    that carries the token's slug, the memo throws a [TypeError]. *)
Theorem memo_throws_without_token p c s m ids txId t :
  Activity.currentTokenSlug p = Some (String c s) →
  Activity.byTxId p = Some m →
  Activity.areTinyTransfersHidden p = true →
  (Activity.tokensBySlug p = None ∨
   ∃ tokens, Activity.tokensBySlug p = Some tokens ∧
             Activity.read tokens (String c s) = Activity.Undefined) →
  Activity.read (default ∅ (Activity.txIdsBySlug p)) (String c s)
    = Activity.Own ids →
  txId ∈ ids →
  m !! txId = Some t →
  Activity.slug t = Some (String c s) →
  transactionsMemo p = Throws Activity.TypeError.
Proof.
  intros Hslug Hby Hhidden Htoken Hids Hin Ht Hts.
  assert (Hd : Activity.decimalsOf p (String c s) = Throws Activity.TypeError).
  { unfold Activity.decimalsOf.
    destruct Htoken as [-> | (tokens & -> & ->)]; reflexivity. }
  unfold Activity.transactionsMemo, Activity.selectTxIds.
  rewrite Hslug, Hby, Hids. unfold Activity.allTransactions.
  rewrite (filterShown_offender p _ (Some t)); [done | |].
  - apply list_elem_of_In, in_map_iff. exists txId.
    split; [| by apply list_elem_of_In].
    rewrite Hby. simpl. by rewrite read_own.
  - unfold Activity.shown. rewrite Hts, Hslug, Hhidden, Hd. simpl.
    by rewrite bool_decide_eq_true_2.
Qed.

(** X23: the memo returns [undefined] exactly when [byTxId] is not
    there; with [byTxId] there it returns a list of groups, possibly
    empty, or throws. *)
Theorem memo_undefined_iff p :
  transactionsMemo p = Returns None ↔ Activity.byTxId p = None.
Proof.
  unfold Activity.transactionsMemo, Activity.selectTxIds.
  destruct (Activity.byTxId p) as [m |]; [| done].
  split; [| done].
  destruct (Activity.currentTokenSlug p) as [[| c s] |];
    try (destruct (mergedTxIds p); [| done]);
    by destruct (Activity.allTransactions _ _ _).
Qed.

End Memo.

(** * The further theorems at concrete inputs *)

Lemma getPlatform_named_ignores_userAgent_witness :
  getPlatform (ipad_page "Mozilla/5.0 (Linux; Android 13)")
  = getPlatform (ipad_page "Mozilla/5.0 (iPad; CPU OS 16_0)").
Proof.
  apply (getPlatform_named_ignores_userAgent
           (ipad_page "Mozilla/5.0 (Linux; Android 13)")
           (ipad_page "Mozilla/5.0 (iPad; CPU OS 16_0)")).
  - reflexivity.
  - apply indexOf_found_spec. reflexivity.
Defined.

Lemma listen_then_unsubscribe_witness :
  registry (snd (listen 4 (fst (listen 0 (new_TonConnect quiet_page))))
              (fst (listen 4 (fst (listen 0 (new_TonConnect quiet_page))))))
  = [0].
Proof.
  apply (listen_then_unsubscribe 4 (fst (listen 0 (new_TonConnect quiet_page)))).
  - unfold wf. simpl. lia.
  - intros Hin%list_elem_of_In. simpl in Hin. intuition discriminate.
Defined.

Lemma emit_interrupted_witness :
  let this := fst (listen 0 (fst (listen 3 (fst (listen 2 (fst (listen 1
                (new_TonConnect busy_page)))))))) in
  snd (emit busy_page (DisconnectEvent 1) this) = Throws "listener failed" ∧
  delivered_between this (fst (emit busy_page (DisconnectEvent 1) this))
    [(1, DisconnectEvent 1); (2, DisconnectEvent 1); (3, DisconnectEvent 1)].
Proof.
  intros this.
  apply (emit_interrupted busy_page this (DisconnectEvent 1) [1; 2] 3 [0]
           "listener failed").
  - reflexivity.
  - repeat constructor.
  - reflexivity.
Defined.

Lemma listen_during_dispatch_witness :
  2 ∈ registry (fst (emit growing_page (DisconnectEvent 1)
                       (fst (listen 1 (new_TonConnect growing_page))))).
Proof.
  apply (listen_during_dispatch growing_page
           (fst (listen 1 (new_TonConnect growing_page))) (DisconnectEvent 1) 1 2).
  - repeat constructor.
  - constructor.
  - constructor.
  - intros cb _ Hin%list_elem_of_In.
    destruct cb as [| [| cb]]; simpl in Hin; intuition discriminate.
Defined.

Lemma onDisconnect_notifies_witness :
  beforeunload (fst (onDisconnect quiet_page
                       (addEventListeners (fst (listen 0 (new_TonConnect quiet_page))))))
  = false.
Proof.
  apply (onDisconnect_notifies quiet_page
           (addEventListeners (fst (listen 0 (new_TonConnect quiet_page))))).
  repeat constructor.
Defined.

Lemma onDisconnect_interrupted_witness :
  beforeunload (fst (onDisconnect busy_page
                       (addEventListeners (fst (listen 3 (new_TonConnect busy_page))))))
  = true.
Proof.
  apply (onDisconnect_interrupted busy_page
           (addEventListeners (fst (listen 3 (new_TonConnect busy_page))))
           [] 3 [] "listener failed").
  - reflexivity.
  - constructor.
  - reflexivity.
Defined.

Lemma connect_without_success_witness :
  snd (complete (connect quiet_page 2 sample_request) (Resolved None)
         (fst (listen 0 (new_TonConnect quiet_page))))
  = Resolved (ConnectEventError 1 0 "Unknown error").
Proof.
  apply (connect_without_success quiet_page
           (fst (listen 0 (new_TonConnect quiet_page))) 2 sample_request None).
  - simpl. unfold TONCONNECT_VERSION. lia.
  - discriminate.
  - repeat constructor.
  - left. reflexivity.
Defined.

Lemma connect_success_arms_unload_witness :
  beforeunload
    (fst (complete (restoreConnection busy_page)
            (Resolved (Some (ConnectEventSuccess 1
                               {| items := []; device := None |})))
            (new_TonConnect busy_page)))
  = true.
Proof.
  apply (connect_success_arms_unload busy_page (new_TonConnect busy_page)
           2 sample_request 1 {| items := []; device := None |}).
  - simpl. unfold TONCONNECT_VERSION. lia.
  - right. reflexivity.
Defined.

Lemma send_is_silent_witness :
  registry (bridge (run quiet_page (boot quiet_page)
                      ([CallListen 0]
                       ++ [CallSend disconnect_7; AnswerResponse 0 (Rejected "closed")])))
  = [0].
Proof.
  destruct (send_is_silent quiet_page [CallListen 0]
              [CallSend disconnect_7; AnswerResponse 0 (Rejected "closed")] eq_refl)
    as [_ H].
  rewrite H. reflexivity.
Defined.

Lemma ordered_days_occur_once_witness :
  StronglySorted (λ a b, (b < a)%Z)
    (map Activity.datetime
       (Activity.groupTransactions utc_day
          [sample_transaction "a" 172800005 "toncoin";
           sample_transaction "b" 172800001 "toncoin";
           sample_transaction "c" 86400007 "toncoin"])).
Proof.
  apply (ordered_days_occur_once utc_day).
  repeat constructor; vm_compute; discriminate.
Defined.

Lemma memo_for_selected_token_witness :
  ∃ groups,
    Activity.transactionsMemo utc_day (λ _ _, true) (λ _, Returns [])
      (sample_props false) = Returns (Some groups) ∧
    concat (map Activity.transactions groups)
    = [sample_transaction "a" 172800005 "toncoin";
       sample_transaction "b" 172800001 "toncoin";
       sample_transaction "c" 86400007 "toncoin"].
Proof.
  destruct (memo_for_selected_token utc_day (λ _ _, true) (λ _, Returns [])
              (sample_props false) _ _ _ ["a"; "b"; "missing"; "c"] None
              eq_refl eq_refl (or_introl eq_refl) (or_introl eq_refl))
    as (groups & Hmemo & Hconcat).
  exists groups. split; [exact Hmemo |]. rewrite Hconcat. vm_compute. reflexivity.
Defined.

Lemma memo_throws_without_token_witness :
  Activity.transactionsMemo utc_day (λ _ _, true) (λ _, Returns [])
    (sample_props true)
  = Throws Activity.TypeError.
Proof.
  eapply (memo_throws_without_token utc_day (λ _ _, true) (λ _, Returns [])
            (sample_props true) _ _ _ ["a"; "b"; "missing"; "c"] "b"
            (sample_transaction "b" 172800001 "toncoin")).
  - reflexivity.
  - reflexivity.
  - reflexivity.
  - right. exists ∅. split; reflexivity.
  - reflexivity.
  - apply list_elem_of_In. simpl. auto.
  - vm_compute. reflexivity.
  - reflexivity.
Defined.
